(** * ADS1x15 comparison: signal metrics and reference-waveform synthesis

    A shallow embedding of [signal_utils.py] and of [generate_reference]
    from [plot_comparison.py].

    The Python code computes on NumPy float64 arrays.  Every function is
    translated once, over an abstract arithmetic [Arith F], and then read at
    two carriers:

    - [float], IEEE binary64 with Rocq's primitive operations: the arithmetic
      the program really runs, executable with [vm_compute];
    - [R], exact real arithmetic: the idealisation in which the algebraic
      laws of the metrics are stated.

    The transcendental part ([np.sin], [np.cos], [np.pi], the float [%]) is a
    second interface, [Trig F], which has an instance over [R] only. *)

From Stdlib Require Import ZArith List Reals Lra Lia Floats Ascii.
From stdpp Require Import base strings pretty gmap sorting.
Set Warnings "-inexact-float,-abstract-large-number".

(** ** Arithmetic interface *)

Class Arith (F : Type) : Type := {
  of_Z : Z → F;              (* int -> float promotion *)
  fadd : F → F → F;
  fsub : F → F → F;
  fmul : F → F → F;
  fdiv : F → F → F;
  fsqrt : F → F;             (* np.sqrt *)
  fabs : F → F;              (* np.abs *)
  fleb : F → F → bool;       (* <= *)
  fltb : F → F → bool;       (* <  *)
  feqb : F → F → bool;       (* == *)
  ffloor : F → Z             (* np.floor followed by astype(intp) *)
}.

Declare Scope num_scope.
Delimit Scope num_scope with num.
Infix "+" := fadd : num_scope.
Infix "-" := fsub : num_scope.
Infix "*" := fmul : num_scope.
Infix "/" := fdiv : num_scope.
Infix "<=?" := fleb : num_scope.
Infix "<?" := fltb : num_scope.
Infix "=?" := feqb : num_scope.

(** A decimal literal [n/d] of the source, e.g. [0.333] is [dec 333 1000].
    Over binary64 the division of two exactly representable integers is
    correctly rounded, so this is the float the Python parser produces. *)
Definition dec `{Arith F} (n d : Z) : F := (of_Z n / of_Z d)%num.

(** *** binary64 *)

Definition float_of_Z (z : Z) : float :=
  SF2Prim (binary_normalize prec emax z 0 false).

Definition float_floor (x : float) : Z :=
  match Prim2SF x with
  | S754_finite s m e =>
      let z := if s then Z.neg m else Z.pos m in
      if (0 <=? e)%Z then (z * 2 ^ e)%Z else (z / 2 ^ (- e))%Z
  | _ => 0%Z
  end.

#[export] Instance float_arith : Arith float := {|
  of_Z := float_of_Z;
  fadd := PrimFloat.add;
  fsub := PrimFloat.sub;
  fmul := PrimFloat.mul;
  fdiv := PrimFloat.div;
  fsqrt := PrimFloat.sqrt;
  fabs := PrimFloat.abs;
  fleb := PrimFloat.leb;
  fltb := PrimFloat.ltb;
  feqb := PrimFloat.eqb;
  ffloor := float_floor
|}.

(** *** exact reals *)

Definition Rleb (x y : R) : bool := if Rle_dec x y then true else false.
Definition Rltb (x y : R) : bool := if Rlt_dec x y then true else false.
Definition Reqb (x y : R) : bool := if Req_dec_T x y then true else false.

#[export] Instance real_arith : Arith R := {|
  of_Z := IZR;
  fadd := Rplus;
  fsub := Rminus;
  fmul := Rmult;
  fdiv := Rdiv;
  fsqrt := R_sqrt.sqrt;
  fabs := Rbasic_fun.Rabs;
  fleb := Rleb;
  fltb := Rltb;
  feqb := Reqb;
  ffloor := Zfloor
|}.

(** ** Decimal text

    [float(text)] is the binary64 number nearest to the decimal that the
    text spells, ties to even, however many digits it has: the exact
    quotient of two integers, rounded once.  [SFdiv] computes the quotient
    of the two integer mantissas with enough bits and a sticky bit before it
    rounds, so the operands are not rounded first. *)
Class Decimal (F : Type) : Type := {
  of_ratio : Z → Z → F       (* n / d for n >= 0 and d > 0 *)
}.

Definition ratio64 (n d : Z) : float :=
  match n, d with
  | Zpos p, Zpos q =>
      SF2Prim (SFdiv prec emax (S754_finite false p 0) (S754_finite false q 0))
  | Z0, Zpos _ => 0%float
  | _, _ => nan
  end.

#[export] Instance float_decimal : Decimal float := {| of_ratio := ratio64 |}.

#[export] Instance real_decimal : Decimal R :=
  {| of_ratio n d := (IZR n / IZR d)%R |}.

(** ** Python exceptions *)

Inductive exn : Type :=
  | KeyError (key : string)
  | ValueError (msg : string)
  | TypeError
  | IndexError.

Inductive outcome (A : Type) : Type :=
  | Ok (a : A)
  | Raise (e : exn).
Arguments Ok {A} a.
Arguments Raise {A} e.

#[export] Instance outcome_ret : MRet outcome := λ A a, Ok a.
#[export] Instance outcome_bind : MBind outcome :=
  λ A B k m, match m with Ok a => k a | Raise e => Raise e end.

#[export] Instance outcome_fmap : FMap outcome :=
  λ A B f m, match m with Ok a => Ok (f a) | Raise e => Raise e end.

Definition raises {A} (m : outcome A) : Prop := ∃ e, m = Raise e.

(** [seq[i]] with Python's negative indices. *)
Definition getitem_seq {A} (l : list A) (i : Z) : outcome A :=
  let n := Z.of_nat (length l) in
  let j := if (i <? 0)%Z then (i + n)%Z else i in
  if (j <? 0)%Z then Raise IndexError
  else match l !! Z.to_nat j with
       | Some x => Ok x
       | None => Raise IndexError
       end.

(** ** The NumPy functions the metrics call *)

Section Numpy.
Context {F : Type} `{Arith F}.
Local Open Scope num_scope.

(** [np.sum]: the elements are added in sequence from [0.0].  (NumPy adds
    blocks pairwise in arrays of eight elements and more; the order is
    immaterial over [R], and the binary64 examples of this file have at
    most four elements, chosen so that every order of summation gives the
    same float.) *)
Definition np_sum (a : list F) : F := fold_left fadd a (of_Z 0).

(** [np.mean]: sum over count.  On an empty array this is [0.0 / 0], which
    NumPy evaluates to NaN under a RuntimeWarning, not an exception. *)
Definition np_mean (a : list F) : F :=
  np_sum a / of_Z (Z.of_nat (length a)).

(** Ascending sort (NumPy partitions around the order statistics it
    needs, which puts the same values at those positions). *)
Fixpoint insert_sorted (x : F) (l : list F) : list F :=
  match l with
  | [] => [x]
  | y :: l' => if x <=? y then x :: y :: l' else y :: insert_sorted x l'
  end.

Definition np_sort (a : list F) : list F := foldr insert_sorted [] a.

(** NumPy's [_lerp]: [a + (b - a) * t], replaced by
    [b - (b - a) * (1 - t)] where [t >= 0.5]. *)
Definition lerp (a b t : F) : F :=
  let diff_b_a := b - a in
  if dec 1 2 <=? t then b - diff_b_a * (of_Z 1 - t) else a + diff_b_a * t.

(** [np.percentile(a, q)] with the default method, "linear": the virtual
    index [(n - 1) * q / 100], its two neighbours in the sorted array, and
    a linear interpolation between them.  [q] outside [0, 100] is a
    [ValueError]; an empty array has no last element for the NaN test
    (NumPy 1.22 and later). *)
Definition np_percentile (a : list F) (q : F) : outcome F :=
  let quantile := q / of_Z 100 in
  if negb ((of_Z 0 <=? quantile) && (quantile <=? of_Z 1))
  then Raise (ValueError "Percentiles must be in the range [0, 100]")
  else
    let values_count := Z.of_nat (length a) in
    let virtual_index := of_Z (values_count - 1) * quantile in
    let above := of_Z (values_count - 1) <=? virtual_index in
    let below := virtual_index <? of_Z 0 in
    let previous_index :=
      if below then 0%Z else if above then (-1)%Z
      else ffloor virtual_index in
    let next_index :=
      if below then 0%Z else if above then (-1)%Z
      else (ffloor virtual_index + 1)%Z in
    let arr := np_sort a in
    _ ← getitem_seq arr (-1);
    previous ← getitem_seq arr previous_index;
    next ← getitem_seq arr next_index;
    let gamma := virtual_index - of_Z previous_index in
    mret (lerp previous next gamma).

(** ** signal_utils.py *)

Definition CT_FS_VOLTAGE : F := dec 333 1000.

Definition remove_dc_bias (signal : list F) : list F :=
  let m := np_mean signal in
  map (λ x, x - m) signal.

Definition calc_rms (signal : list F) : F :=
  let ac := remove_dc_bias signal in
  fsqrt (np_mean (map (λ x, x * x) ac)).

(** the default [percentile=99.5] *)
Definition default_percentile : F := dec 199 2.

Definition calc_peak (signal : list F) (percentile : F) : outcome F :=
  let ac := remove_dc_bias signal in
  np_percentile (map fabs ac) percentile.

Definition calc_peak_to_peak (signal : list F) (percentile : F)
  : outcome F :=
  let ac := remove_dc_bias signal in
  high ← np_percentile ac percentile;
  low ← np_percentile ac (of_Z 100 - percentile);
  mret (high - low).

Definition vrms_to_current (vrms i_primary : F) : F :=
  vrms * i_primary / CT_FS_VOLTAGE.

End Numpy.

(** ** Transcendental interface *)

Class Trig (F : Type) `{Arith F} : Type := {
  fpi : F;                   (* np.pi *)
  fsin : F → F;              (* np.sin *)
  fcos : F → F;              (* np.cos *)
  fmod : F → F → F           (* the float [%]: sign of the divisor *)
}.

#[export] Instance real_trig : Trig R := {|
  fpi := PI;
  fsin := sin;
  fcos := cos;
  fmod x m := (x - IZR (Zfloor (x / m)) * m)%R
|}.

(** ** Waveform descriptors: the [params] dict of [parse_signal_name] *)

(** A dict value: the family tag is a string; the numbers are read as
    floats (the parser's ints are promoted at their first use, exactly as
    long as binary64 holds them). *)
Inductive value (F : Type) : Type :=
  | VStr (s : string)
  | VNum (x : F).
Arguments VStr {F} s.
Arguments VNum {F} x.

Section Synthesizer.
Context {F : Type} `{Trig F}.
Local Open Scope num_scope.

(** [params[key]] *)
Definition getitem_dict (params : gmap string (value F)) (key : string)
  : outcome (value F) :=
  match params !! key with
  | Some v => Ok v
  | None => Raise (KeyError key)
  end.

(** a dict value used as a number *)
Definition as_num (v : value F) : outcome F :=
  match v with
  | VNum x => Ok x
  | VStr _ => Raise TypeError
  end.

(** [v == "tag"] *)
Definition is_str (v : value F) (tag : string) : bool :=
  match v with
  | VStr s => String.eqb s tag
  | VNum _ => false
  end.

Definition np_arange (num : Z) : list F :=
  map (λ i, of_Z (Z.of_nat i)) (seq 0 (Z.to_nat num)).

(** [np.linspace(start, stop, num, endpoint=False)] *)
Definition np_linspace (start stop : F) (num : Z) : outcome (list F) :=
  if (num <? 0)%Z
  then Raise (ValueError ("Number of samples, " +:+ pretty num
                          +:+ ", must be non-negative."))
  else
    let div := num in
    let y := np_arange num in
    let delta := stop - start in
    let y :=
      if (0 <? div)%Z then
        let step := delta / of_Z div in
        if step =? of_Z 0
        then map (λ v, v / of_Z div * delta) y
        else map (λ v, v * step) y
      else map (λ v, v * delta) y in
    Ok (map (λ v, v + start) y).

(** [np.sign] *)
Definition np_sign (x : F) : F :=
  if x <? of_Z 0 then of_Z (-1)
  else if of_Z 0 <? x then of_Z 1
  else if x =? of_Z 0 then of_Z 0
  else x.

(** The text of line 101, [f"Tipo de onda desconhecido: {wtype}"].  A tag
    that is a number would be printed as Python prints the number, which the
    embedding does not spell. *)
Definition unknown_type_message (wtype : value F) : string :=
  match wtype with
  | VStr s => "Tipo de onda desconhecido: " +:+ s
  | VNum _ => "Tipo de onda desconhecido: "
  end.

(** One sample of each family at time [tk], before scaling. *)
Definition sine_sample (f tk : F) : F := fsin (of_Z 2 * fpi * f * tk).

Definition square_sample (f tk : F) : F :=
  np_sign (fsin (of_Z 2 * fpi * f * tk)).

Definition triangle_sample (f tk : F) : F :=
  let phase := fmod (f * tk) (of_Z 1) in
  of_Z 4 * fabs (phase - dec 1 2) - of_Z 1.

Definition dimmer_sample (firing_angle f tk : F) : F :=
  let full_sine := fsin (of_Z 2 * fpi * f * tk) in
  let phase_in_cycle := fmod (of_Z 2 * fpi * f * tk) fpi in
  if firing_angle <=? phase_in_cycle then full_sine else of_Z 0.

Definition sine_mod_sample (f f_mod tk : F) : F :=
  let carrier := fsin (of_Z 2 * fpi * f * tk) in
  let envelope := of_Z 1 + fcos (of_Z 2 * fpi * f_mod * tk) in
  carrier * envelope.

(** The family dispatch of [generate_reference] (lines 74-101): the wave
    before scaling. *)
Definition reference_wave (params : gmap string (value F))
    (f wtype : value F) (t : list F) : outcome (list F) :=
  if is_str wtype "sine" then
    f ← as_num f;
    mret (map (sine_sample f) t)
  else if is_str wtype "square" then
    f ← as_num f;
    mret (map (square_sample f) t)
  else if is_str wtype "triangle" then
    f ← as_num f;
    mret (map (triangle_sample f) t)
  else if is_str wtype "dimmer" then
    duty_pct ← getitem_dict params "duty_pct";
    duty_pct ← as_num duty_pct;
    let firing_angle := fpi * (of_Z 1 - duty_pct / of_Z 100) in
    f ← as_num f;
    mret (map (dimmer_sample firing_angle f) t)
  else if is_str wtype "sine_mod" then
    f_mod ← getitem_dict params "mod_freq_hz";
    f ← as_num f;
    f_mod ← as_num f_mod;
    mret (map (sine_mod_sample f f_mod) t)
  else Raise (ValueError (unknown_type_message wtype)).

(** Lines 69-101: the time grid, the three lookups and the dispatch. *)
Definition unscaled_reference (params : gmap string (value F))
    (duration : F) (n_points : Z) : outcome (list F * list F * value F) :=
  t ← np_linspace (of_Z 0) duration n_points;
  f ← getitem_dict params "freq_hz";
  vrms ← getitem_dict params "vrms_v";
  wtype ← getitem_dict params "type";
  wave ← reference_wave params f wtype t;
  mret (t, wave, vrms).

(** [np.sqrt(np.mean(wave ** 2))]: the RMS without bias removal. *)
Definition raw_rms (wave : list F) : F :=
  fsqrt (np_mean (map (λ w, w * w) wave)).

(** Lines 103-106. *)
Definition rescale (vrms : value F) (wave : list F) : outcome (list F) :=
  let rms_raw := raw_rms wave in
  if of_Z 0 <? rms_raw then
    vrms ← as_num vrms;
    mret (map (λ w, w * (vrms / rms_raw)) wave)
  else mret wave.

Definition generate_reference (params : gmap string (value F))
    (duration : F) (n_points : Z) : outcome (list F * list F) :=
  '(t, wave, vrms) ← unscaled_reference params duration n_points;
  wave ← rescale vrms wave;
  mret (t, wave).

(** the defaults [duration=1.0, n_points=10000] *)
Definition default_duration : F := of_Z 1.
Definition default_n_points : Z := 10000.

(** The descriptors [parse_signal_name] builds. *)
Definition descriptor (wtype : string) (freq_hz vrms_v : F)
  : gmap string (value F) :=
  {[ "type" := VStr wtype; "freq_hz" := VNum freq_hz;
     "vrms_v" := VNum vrms_v ]}.

Definition dimmer_descriptor (duty_pct freq_hz vrms_v : F)
  : gmap string (value F) :=
  <["duty_pct" := VNum duty_pct]> (descriptor "dimmer" freq_hz vrms_v).

Definition sine_mod_descriptor (freq_hz mod_freq_hz vrms_v : F)
  : gmap string (value F) :=
  <["mod_freq_hz" := VNum mod_freq_hz]> (descriptor "sine_mod" freq_hz vrms_v).

(** *** Malformed descriptors *)

Definition families : list string :=
  ["sine"; "square"; "triangle"; "dimmer"; "sine_mod"].

(** the keys every family reads *)
Definition common_keys : list string := ["freq_hz"; "vrms_v"; "type"].

(** the keys one family reads besides *)
Definition family_keys (tag : string) : list string :=
  if String.eqb tag "dimmer" then ["duty_pct"]
  else if String.eqb tag "sine_mod" then ["mod_freq_hz"]
  else [].

Inductive malformed (params : gmap string (value F)) : Prop :=
  | unknown_family v :
      params !! "type" = Some v →
      (∀ tag, tag ∈ families → is_str v tag = false) →
      malformed params
  | missing_common_key key :
      key ∈ common_keys → params !! key = None → malformed params
  | missing_family_key tag key :
      params !! "type" = Some (VStr tag) →
      key ∈ family_keys tag → params !! key = None → malformed params.

Definition input_error (e : exn) : Prop :=
  match e with
  | KeyError _ | ValueError _ => True
  | TypeError | IndexError => False
  end.

End Synthesizer.

(** ** The metric functions as fallible calls *)

(** The four metric functions as calls that either return or raise.
    [remove_dc_bias] and [calc_rms] are built from [np.mean], array
    arithmetic and [np.sqrt], none of which raises on a float array. *)
Inductive metric : Type := RemoveDcBias | Rms | Peak | PeakToPeak.

Inductive metric_result (F : Type) : Type :=
  | Scalar (x : F)
  | Samples (l : list F).
Arguments Scalar {F} x.
Arguments Samples {F} l.

Definition call_metric `{Arith F} (m : metric) (signal : list F)
    (percentile : F) : outcome (metric_result F) :=
  match m with
  | RemoveDcBias => Ok (Samples (remove_dc_bias signal))
  | Rms => Ok (Scalar (calc_rms signal))
  | Peak => Scalar <$> calc_peak signal percentile
  | PeakToPeak => Scalar <$> calc_peak_to_peak signal percentile
  end.

(** ** Regular expressions

    The fragment of Python's [re] the program uses, all of it under
    [re.IGNORECASE]: literal text, greedy one-or-more of a character class,
    one character of a class, alternation, capturing groups and [$].  The
    matcher backtracks in Python's order (the longest repetition first, the
    left alternative first); the continuation [k] is the rest of the match.
    Names are ASCII strings. *)

Definition is_digit (c : ascii) : bool :=
  (48 <=? nat_of_ascii c)%nat && (nat_of_ascii c <=? 57)%nat.

Definition is_digit_or_dot (c : ascii) : bool :=
  is_digit c || Ascii.eqb c ".".


(** [c.lower()] *)
Definition lower (c : ascii) : ascii :=
  if (65 <=? nat_of_ascii c)%nat && (nat_of_ascii c <=? 90)%nat
  then ascii_of_nat (nat_of_ascii c + 32)
  else c.

Fixpoint str_lower (s : string) : string :=
  match s with
  | EmptyString => EmptyString
  | String c s' => String (lower c) (str_lower s')
  end.

Inductive regex : Type :=
  | Lit (text : string)
  | Plus (cls : ascii → bool)
  | One (cls : ascii → bool)
  | Alt (r1 r2 : regex)
  | Group (r : regex)
  | Seq (r1 r2 : regex)
  | End.

(** the rest of [s] after the literal, letters compared without case *)
Fixpoint lit_match (text s : string) : option string :=
  match text, s with
  | EmptyString, _ => Some s
  | String a text', String c s' =>
      if Ascii.eqb (lower a) (lower c) then lit_match text' s' else None
  | String _ _, EmptyString => None
  end.

(** zero or more characters of the class, the longest run first *)
Fixpoint star {A} (cls : ascii → bool) (s : string)
    (k : string → option A) : option A :=
  match s with
  | String c s' =>
      if cls c
      then match star cls s' k with
           | Some r => Some r
           | None => k s
           end
      else k s
  | EmptyString => k s
  end.

Fixpoint str_take (n : nat) (s : string) : string :=
  match n, s with
  | S n', String c s' => String c (str_take n' s')
  | _, _ => EmptyString
  end.

(** the text consumed between [s] and its suffix [rest] *)
Definition consumed (s rest : string) : string :=
  str_take (String.length s - String.length rest) s.

Fixpoint rmatch {A} (r : regex) (s : string) (caps : list string)
    (k : string → list string → option A) : option A :=
  match r with
  | Lit text =>
      match lit_match text s with
      | Some rest => k rest caps
      | None => None
      end
  | Plus cls =>
      match s with
      | String c s' => if cls c then star cls s' (λ rest, k rest caps) else None
      | EmptyString => None
      end
  | One cls =>
      match s with
      | String c s' => if cls c then k s' caps else None
      | EmptyString => None
      end
  | Alt r1 r2 =>
      match rmatch r1 s caps k with
      | Some x => Some x
      | None => rmatch r2 s caps k
      end
  | Group r1 =>
      rmatch r1 s caps (λ rest caps', k rest (caps' ++ [consumed s rest]))
  | Seq r1 r2 =>
      rmatch r1 s caps (λ rest caps', rmatch r2 rest caps' k)
  | End =>
      if String.eqb s "" || String.eqb s (String "010" "")
      then k s caps else None
  end.

(** [re.match(pattern, s)]: anchored at the start only; the groups. *)
Definition re_match (r : regex) (s : string) : option (list string) :=
  rmatch r s [] (λ _ caps, Some caps).

(** [m.group(i)], [i >= 1] *)
Definition group (caps : list string) (i : nat) : string :=
  nth (i - 1) caps EmptyString.

(** *** What a match is

    The declarative reading of the fragment: [matches r s rest caps caps']
    says that [r] matches a prefix of [s] leaving [rest], extending the
    groups [caps] to [caps']. *)

Fixpoint str_all (cls : ascii → bool) (s : string) : Prop :=
  match s with
  | EmptyString => True
  | String c s' => cls c = true ∧ str_all cls s'
  end.

Fixpoint matches (r : regex) (s rest : string) (caps caps' : list string)
  : Prop :=
  match r with
  | Lit text => lit_match text s = Some rest ∧ caps' = caps
  | Plus cls =>
      ∃ pre, pre ≠ EmptyString ∧ str_all cls pre ∧ s = pre +:+ rest
             ∧ caps' = caps
  | One cls => ∃ c, cls c = true ∧ s = String c rest ∧ caps' = caps
  | Alt r1 r2 => matches r1 s rest caps caps' ∨ matches r2 s rest caps caps'
  | Group r1 =>
      ∃ caps1, matches r1 s rest caps caps1
               ∧ caps' = caps1 ++ [consumed s rest]
  | Seq r1 r2 =>
      ∃ mid caps1, matches r1 s mid caps caps1
                   ∧ matches r2 mid rest caps1 caps'
  | End =>
      (s = EmptyString ∨ s = String "010" EmptyString)
      ∧ rest = s ∧ caps' = caps
  end.

(** every class of [r] reads a letter and its lower case alike *)
Fixpoint case_blind (r : regex) : Prop :=
  match r with
  | Lit _ | End => True
  | Plus cls | One cls => ∀ c, cls (lower c) = cls c
  | Alt r1 r2 | Seq r1 r2 => case_blind r1 ∧ case_blind r2
  | Group r1 => case_blind r1
  end.

(** ** parse_signal_name *)

(** [dimmer_(\d+)pct_(\d+)hz_([\d.]+)mVrms] *)
Definition dimmer_re : regex :=
  Seq (Lit "dimmer_") (Seq (Group (Plus is_digit)) (Seq (Lit "pct_")
    (Seq (Group (Plus is_digit)) (Seq (Lit "hz_")
      (Seq (Group (Plus is_digit_or_dot)) (Lit "mVrms")))))).

(** [sine_(\d+)hz_mod_(\d+)hz_([\d.]+)mVrms] *)
Definition sine_mod_re : regex :=
  Seq (Lit "sine_") (Seq (Group (Plus is_digit)) (Seq (Lit "hz_mod_")
    (Seq (Group (Plus is_digit)) (Seq (Lit "hz_")
      (Seq (Group (Plus is_digit_or_dot)) (Lit "mVrms")))))).

(** [(sine|square|triangle)_(\d+)hz_([\d.]+)mVrms] *)
Definition plain_re : regex :=
  Seq (Group (Alt (Lit "sine") (Alt (Lit "square") (Lit "triangle"))))
    (Seq (Lit "_") (Seq (Group (Plus is_digit)) (Seq (Lit "hz_")
      (Seq (Group (Plus is_digit_or_dot)) (Lit "mVrms"))))).

Definition digit_value (c : ascii) : Z := Z.of_nat (nat_of_ascii c) - 48.

Fixpoint int_acc (acc : Z) (s : string) : Z :=
  match s with
  | EmptyString => acc
  | String c s' => int_acc (10 * acc + digit_value c) s'
  end.

(** [int(text)] for a text of decimal digits *)
Definition py_int (s : string) : Z := int_acc 0 s.

Fixpoint count_dots (s : string) : nat :=
  match s with
  | EmptyString => 0
  | String c s' => (if Ascii.eqb c "." then 1 else 0) + count_dots s'
  end.

Fixpoint strip_dots (s : string) : string :=
  match s with
  | EmptyString => EmptyString
  | String c s' =>
      if Ascii.eqb c "." then strip_dots s' else String c (strip_dots s')
  end.

Fixpoint after_dot (s : string) : string :=
  match s with
  | EmptyString => EmptyString
  | String c s' => if Ascii.eqb c "." then s' else after_dot s'
  end.

Section ParseSignalName.
Context {F : Type} `{Trig F} `{Decimal F}.
Local Open Scope num_scope.

(** [float(text)] for a text of digits and dots, which is what group 3
    holds: at most one dot and at least one digit, or a [ValueError].  The
    value is the integer of the digits over the power of ten of the
    fractional digits, rounded once. *)
Definition py_float (s : string) : outcome F :=
  if (count_dots s <=? 1)%nat && negb (String.eqb (strip_dots s) "")
  then Ok (of_ratio (py_int (strip_dots s))
             (10 ^ Z.of_nat (String.length (after_dot s))))
  else Raise (ValueError ("could not convert string to float: '" +:+ s +:+ "'")).

Definition parse_signal_name (name : string)
  : outcome (gmap string (value F)) :=
  match re_match dimmer_re name with
  | Some m =>
      vrms ← py_float (group m 3);
      mret (dimmer_descriptor (of_Z (py_int (group m 1)))
              (of_Z (py_int (group m 2))) (vrms * dec 1 1000))
  | None =>
  match re_match sine_mod_re name with
  | Some m =>
      vrms ← py_float (group m 3);
      mret (sine_mod_descriptor (of_Z (py_int (group m 1)))
              (of_Z (py_int (group m 2))) (vrms * dec 1 1000))
  | None =>
  match re_match plain_re name with
  | Some m =>
      vrms ← py_float (group m 3);
      mret (descriptor (str_lower (group m 1))
              (of_Z (py_int (group m 2))) (vrms * dec 1 1000))
  | None => Raise (ValueError ("Nome de sinal não reconhecido: " +:+ name))
  end end end.

End ParseSignalName.

(** *** The names the embedding is exact on

    A Python [str] holds Unicode characters, and under [re.IGNORECASE] a
    few characters outside ASCII fold to ASCII letters; the integers of a
    descriptor are Python ints, which the embedding reads as numbers of the
    arithmetic.  Both readings are exact for ASCII names whose integers
    binary64 holds exactly, which fifteen digits guarantee. *)

Definition is_ascii (c : ascii) : bool := (nat_of_ascii c <? 128)%nat.

Definition ascii_text (s : string) : Prop := str_all is_ascii s.

Fixpoint longest_run_from (cls : ascii → bool) (run : nat) (s : string)
  : nat :=
  match s with
  | EmptyString => run
  | String c s' =>
      if cls c then longest_run_from cls (S run) s'
      else Nat.max run (longest_run_from cls 0 s')
  end.

(** the length of the longest run of characters of the class *)
Definition longest_run (cls : ascii → bool) (s : string) : nat :=
  longest_run_from cls 0 s.

(** *** The names of the three formats *)

Definition dimmer_name (duty freq vrms : string) : string :=
  "dimmer_" +:+ duty +:+ "pct_" +:+ freq +:+ "hz_" +:+ vrms +:+ "mVrms".

Definition sine_mod_name (freq mod_freq vrms : string) : string :=
  "sine_" +:+ freq +:+ "hz_mod_" +:+ mod_freq +:+ "hz_" +:+ vrms +:+ "mVrms".

Definition plain_name (tag freq vrms : string) : string :=
  tag +:+ "_" +:+ freq +:+ "hz_" +:+ vrms +:+ "mVrms".

(** a non-empty run of decimal digits *)
Definition digits (s : string) : Prop :=
  s ≠ EmptyString ∧ str_all is_digit s.

(** a non-empty run of digits and dots *)
Definition decimal_text (s : string) : Prop :=
  s ≠ EmptyString ∧ str_all is_digit_or_dot s.

(** [rest] is empty or starts outside the class *)
Definition stops (cls : ascii → bool) (rest : string) : Prop :=
  match rest with
  | EmptyString => True
  | String c _ => cls c = false
  end.

(** ** Percentiles of a sorted sequence

    What "the percentile [q]" of [n] sorted values is: the value at the
    position [(n - 1) * q / 100], taken linearly between the two values
    next to that position when it is not a whole number. *)
Definition interpolates (sorted : list R) (q v : R) : Prop :=
  ∃ (i : nat) (x0 x1 gamma : R),
    sorted !! i = Some x0
    ∧ sorted !! (S i `min` (length sorted - 1))%nat = Some x1
    ∧ (0 <= gamma < 1)%R
    ∧ (INR (length sorted - 1) * (q / 100) = INR i + gamma)%R
    ∧ v = (x0 + (x1 - x0) * gamma)%R.

(** ** Well-formed descriptors *)

(** A descriptor as [parse_signal_name] returns it: one of the five tags,
    numeric frequency and target RMS, and the numeric extra key of the
    family. *)
Definition well_formed `{Trig F} (params : gmap string (value F)) : Prop :=
  ∃ (tag : string) (f v : F),
    params !! "type" = Some (VStr tag) ∧ tag ∈ families
    ∧ params !! "freq_hz" = Some (VNum f)
    ∧ params !! "vrms_v" = Some (VNum v)
    ∧ (tag = "dimmer" → ∃ d, params !! "duty_pct" = Some (VNum d))
    ∧ (tag = "sine_mod" → ∃ m, params !! "mod_freq_hz" = Some (VNum m)).

(** * generate_all.py *)

(** the class [[01]] *)
Definition is_0_or_1 (c : ascii) : bool :=
  Ascii.eqb c "0" || Ascii.eqb c "1".


(** the order of [sorted] on [str]: character by character, a proper prefix
    first *)
Definition str_le (a b : string) : Prop := String.leb a b = true.

#[export] Instance str_le_dec : RelDecision str_le.
Proof. intros a b. unfold str_le. apply _. Defined.

Section FindSignalPairs.
(** [os.path.isfile(os.path.join(LOGS_DIR, name))] *)
Variable isfile : string → bool.




End FindSignalPairs.


(** ** The all-zero wave in binary64 *)

(** [0.0 / n] is [+0.0]: the mean of [n] zeros *)
Definition zero_over (n : nat) : bool :=
  match Prim2SF (0 / float_of_Z (Z.of_nat n))%float with
  | S754_zero false => true
  | _ => false
  end.

(** * Properties *)

(** ** Full-scale current conversion *)

(** C3 (as stated), counterexample: in binary64 the product
    [0.333 * 100] is rounded before the division, and the quotient is one
    unit in the last place above [100.0]. *)
Lemma vrms_to_current_full_scale_not_100 :
  vrms_to_current (F:=float) 0.333%float 100%float ≠ 100%float.
Proof. vm_compute. discriminate. Qed.

(** C3 (amended): [vrms_to_current(vrms, i_primary)] is the expression
    [vrms * i_primary / CT_FS_VOLTAGE] of its arithmetic, evaluated left to
    right with the module constant [CT_FS_VOLTAGE = 0.333], with no clamping:
    over the reals it is linear in [vrms] and maps the full-scale voltage
    [0.333] at [i_primary = 100] to [100]; in binary64 the same call returns
    [100.00000000000001]. *)
Theorem vrms_to_current_formula :
  (∀ (F : Type) (A : Arith F) (vrms i_primary : F),
      vrms_to_current vrms i_primary
      = (vrms * i_primary / CT_FS_VOLTAGE)%num)
  ∧ CT_FS_VOLTAGE (F:=float) = 0.333%float
  ∧ vrms_to_current (F:=float) 0.333%float 100%float
    = 100.00000000000001%float
  ∧ vrms_to_current (F:=R) (333 / 1000)%R 100%R = 100%R
  ∧ (∀ a vrms i_primary : R,
        vrms_to_current (a * vrms)%R i_primary
        = (a * vrms_to_current vrms i_primary)%R).
Proof.
  split; [reflexivity|].
  split; [vm_compute; reflexivity|].
  split; [vm_compute; reflexivity|].
  split.
  - unfold vrms_to_current, CT_FS_VOLTAGE, dec; simpl. field.
  - intros a v i. unfold vrms_to_current, CT_FS_VOLTAGE, dec; simpl. field.
Qed.

(** ** Empty input *)

Lemma np_percentile_empty `{Arith F} (q : F) : raises (np_percentile [] q).
Proof.
  unfold np_percentile, raises.
  destruct (negb _); eauto.
Qed.

(** C4 (as stated), counterexample: on the empty sequence [remove_dc_bias]
    returns the empty sequence and [calc_rms] returns NaN, so not every
    metric call fails. *)
Lemma empty_input_not_always_an_error :
  call_metric (F:=float) RemoveDcBias [] 99.5%float = Ok (Samples [])
  ∧ call_metric (F:=float) Rms [] 99.5%float = Ok (Scalar nan)
  ∧ ¬ (∀ m, raises (call_metric (F:=float) m [] 99.5%float)).
Proof.
  split; [reflexivity|]. split; [vm_compute; reflexivity|].
  intros Hall. destruct (Hall Rms) as [e He]. vm_compute in He. discriminate.
Qed.

(** C4 (amended): on an empty sequence [remove_dc_bias] returns the empty
    sequence and [calc_rms] returns the square root of [0.0 / 0], which is
    NaN in binary64, both without raising; [calc_peak] and
    [calc_peak_to_peak] fail for every percentile, inside [np.percentile]. *)
Theorem empty_input_behaviour :
  (∀ (F : Type) (A : Arith F) (p : F),
      remove_dc_bias (F:=F) [] = []
      ∧ calc_rms (F:=F) [] = fsqrt (of_Z 0 / of_Z 0)%num
      ∧ raises (calc_peak [] p)
      ∧ raises (calc_peak_to_peak [] p))
  ∧ PrimFloat.is_nan (calc_rms (F:=float) []) = true.
Proof.
  split; [|vm_compute; reflexivity].
  intros F A p. split; [reflexivity|]. split; [reflexivity|]. split.
  - apply np_percentile_empty.
  - destruct (np_percentile_empty (F:=F) p) as [e He].
    exists e. unfold calc_peak_to_peak. change (remove_dc_bias []) with (@nil F).
    rewrite He. reflexivity.
Qed.

(** ** Peak-to-peak *)

(** ** Constant sequences and shifts in binary64 *)

(** C8 (as stated), counterexample: the mean of [0.1, 0.1, 0.1] is rounded
    to [0.10000000000000002], which leaves a residue in every sample. *)
Lemma constant_sequence_residue :
  np_mean (F:=float) [0.1; 0.1; 0.1]%float = 0.10000000000000002%float
  ∧ calc_rms (F:=float) [0.1; 0.1; 0.1]%float ≠ 0%float
  ∧ calc_peak (F:=float) [0.1; 0.1; 0.1]%float 99.5%float ≠ Ok 0%float.
Proof.
  split; [vm_compute; reflexivity|].
  split; vm_compute; discriminate.
Qed.

(** C7 (as stated), counterexample: adding the bias [1.65] to
    [0.1, 0.2] changes the last digits of the RMS. *)
Lemma shift_changes_rms_binary64 :
  calc_rms (F:=float) [0.1; 0.2]%float = 0.050000000000000003%float
  ∧ calc_rms (F:=float) (map (λ x, x + 1.65)%float [0.1; 0.2]%float)
    = 0.049999999999999933%float
  ∧ calc_rms (F:=float) (map (λ x, x + 1.65)%float [0.1; 0.2]%float)
    ≠ calc_rms (F:=float) [0.1; 0.2]%float.
Proof.
  split; [vm_compute; reflexivity|].
  split; [vm_compute; reflexivity|].
  vm_compute. discriminate.
Qed.

(** ** Malformed descriptors *)

Section Malformed.
Context {F : Type} `{Trig F}.

Lemma getitem_dict_Some (params : gmap string (value F)) key v :
  params !! key = Some v → getitem_dict params key = Ok v.
Proof. unfold getitem_dict. by intros ->. Qed.

Lemma getitem_dict_None (params : gmap string (value F)) key :
  params !! key = None → getitem_dict params key = Raise (KeyError key).
Proof. unfold getitem_dict. by intros ->. Qed.

Lemma np_linspace_raise (start stop : F) (num : Z) (e : exn) :
  np_linspace start stop num = Raise e → input_error e.
Proof.
  unfold np_linspace. destruct (num <? 0)%Z; [|discriminate].
  intros [= <-]. exact I.
Qed.

Lemma reference_wave_unknown (params : gmap string (value F))
    (f v : value F) (t : list F) :
  (∀ tag, tag ∈ families → is_str v tag = false) →
  reference_wave params f v t = Raise (ValueError (unknown_type_message v)).
Proof.
  intros Hv. unfold reference_wave.
  rewrite !Hv; [reflexivity|..]; unfold families; set_solver.
Qed.

Lemma reference_wave_missing_key (params : gmap string (value F))
    (f : value F) (tag key : string) (t : list F) :
  key ∈ family_keys tag → params !! key = None →
  reference_wave params f (VStr tag) t = Raise (KeyError key).
Proof.
  unfold family_keys, reference_wave, is_str. intros Hk Hnone.
  destruct (String.eqb_spec tag "dimmer") as [->|Hd].
  - apply list_elem_of_singleton in Hk as ->. simpl.
    rewrite (getitem_dict_None _ _ Hnone). reflexivity.
  - destruct (String.eqb_spec tag "sine_mod") as [->|Hm].
    + apply list_elem_of_singleton in Hk as ->. simpl.
      rewrite (getitem_dict_None _ _ Hnone). reflexivity.
    + by apply elem_of_nil in Hk.
Qed.

End Malformed.

(** ** The metrics in exact arithmetic *)

Section RealMetrics.
Local Open Scope R_scope.

Lemma Rleb_true (x y : R) : x <= y → Rleb x y = true.
Proof. unfold Rleb. destruct (Rle_dec x y); [reflexivity|contradiction]. Qed.

Lemma Rleb_false (x y : R) : y < x → Rleb x y = false.
Proof. unfold Rleb. destruct (Rle_dec x y); [lra|reflexivity]. Qed.

Lemma Rltb_true (x y : R) : x < y → Rltb x y = true.
Proof. unfold Rltb. destruct (Rlt_dec x y); [reflexivity|contradiction]. Qed.

Lemma Rltb_false (x y : R) : y <= x → Rltb x y = false.
Proof. unfold Rltb. destruct (Rlt_dec x y); [lra|reflexivity]. Qed.

Lemma Reqb_false (x y : R) : x ≠ y → Reqb x y = false.
Proof. unfold Reqb. destruct (Req_dec_T x y); [contradiction|reflexivity]. Qed.

Lemma IZR_of_nat (n : nat) : IZR (Z.of_nat n) = INR n.
Proof. symmetry. apply INR_IZR_INZ. Qed.

(** *** Sums *)

Lemma fold_left_Rplus_acc (l : list R) (a : R) :
  fold_left Rplus l a = a + fold_left Rplus l 0.
Proof.
  revert a. induction l as [|x l IH]; intros a; simpl.
  - lra.
  - rewrite (IH (a + x)), (IH (0 + x)). lra.
Qed.

Lemma np_sum_nil : np_sum (F:=R) [] = 0.
Proof. reflexivity. Qed.

Lemma np_sum_cons (x : R) (l : list R) : np_sum (x :: l) = x + np_sum l.
Proof.
  unfold np_sum. simpl. rewrite fold_left_Rplus_acc. lra.
Qed.

Lemma np_sum_app (l1 l2 : list R) :
  np_sum (l1 ++ l2) = np_sum l1 + np_sum l2.
Proof.
  induction l1 as [|x l1 IH]; simpl.
  - rewrite np_sum_nil. lra.
  - rewrite !np_sum_cons, IH. lra.
Qed.

Lemma np_sum_scale (c : R) (l : list R) :
  np_sum (map (λ x, x * c) l) = np_sum l * c.
Proof.
  induction l as [|x l IH]; simpl.
  - rewrite np_sum_nil. lra.
  - rewrite !np_sum_cons, IH. lra.
Qed.

Lemma np_sum_shift (m : R) (l : list R) :
  np_sum (map (λ x, x - m) l) = np_sum l - INR (length l) * m.
Proof.
  induction l as [|x l IH].
  - simpl. rewrite np_sum_nil. lra.
  - cbn [map length]. rewrite !np_sum_cons, IH, S_INR. lra.
Qed.

Lemma np_sum_nonneg (l : list R) : Forall (λ x, 0 <= x) l → 0 <= np_sum l.
Proof.
  induction 1 as [|x l Hx _ IH].
  - rewrite np_sum_nil. lra.
  - rewrite np_sum_cons. lra.
Qed.

Lemma np_sum_squares_nonneg (l : list R) : 0 <= np_sum (map (λ x, x * x) l).
Proof.
  apply np_sum_nonneg, Forall_map, Forall_forall. intros x _. simpl. nra.
Qed.

(** the sum of squared deviations from [m] *)
Lemma np_sum_sq_dev (m : R) (l : list R) :
  np_sum (map (λ x, x * x) (map (λ x, x - m) l))
  = np_sum (map (λ x, x * x) l) - 2 * m * np_sum l + INR (length l) * m * m.
Proof.
  induction l as [|x l IH].
  - simpl. rewrite !np_sum_nil. lra.
  - cbn [map length]. rewrite !np_sum_cons, IH, S_INR. lra.
Qed.

(** *** Mean, bias removal, RMS *)

Lemma np_mean_R (l : list R) : np_mean l = np_sum l / INR (length l).
Proof. unfold np_mean. simpl. by rewrite IZR_of_nat. Qed.

Lemma INR_length_pos {A} (l : list A) : l ≠ [] → 0 < INR (length l).
Proof.
  destruct l; [done|]. intros _. apply lt_0_INR. simpl. lia.
Qed.

Lemma np_mean_squares_nonneg (l : list R) :
  0 <= np_mean (map (λ x, x * x) l).
Proof.
  rewrite np_mean_R. destruct l as [|x l].
  - simpl. rewrite np_sum_nil. unfold Rdiv. lra.
  - apply Rmult_le_pos; [apply np_sum_squares_nonneg|].
    left. apply Rinv_0_lt_compat, INR_length_pos. done.
Qed.

Lemma np_mean_shift (k : R) (l : list R) :
  l ≠ [] → np_mean (map (λ x, x + k) l) = np_mean l + k.
Proof.
  intros Hl. rewrite !np_mean_R, length_map.
  replace (map (λ x, x + k) l) with (map (λ x, x - - k) l)
    by (apply map_ext; intros; simpl; lra).
  rewrite np_sum_shift. pose proof (INR_length_pos l Hl). field. lra.
Qed.

Lemma np_mean_scale (c : R) (l : list R) :
  np_mean (map (λ x, x * c) l) = np_mean l * c.
Proof.
  rewrite !np_mean_R, length_map, np_sum_scale. unfold Rdiv. ring.
Qed.

Lemma remove_dc_bias_shift (k : R) (l : list R) :
  remove_dc_bias (map (λ x, x + k) l) = remove_dc_bias l.
Proof.
  destruct (decide (l = [])) as [->|Hl]; [reflexivity|].
  unfold remove_dc_bias. rewrite np_mean_shift by done.
  rewrite map_map. apply map_ext. intros x. simpl. lra.
Qed.

Lemma remove_dc_bias_scale (c : R) (l : list R) :
  remove_dc_bias (map (λ x, x * c) l) = map (λ x, x * c) (remove_dc_bias l).
Proof.
  unfold remove_dc_bias. rewrite np_mean_scale, !map_map.
  apply map_ext. intros x. simpl. lra.
Qed.

Lemma raw_rms_scale (c : R) (l : list R) :
  raw_rms (map (λ x, x * c) l) = raw_rms l * Rabs c.
Proof.
  unfold raw_rms. rewrite map_map.
  replace (map (λ x, fmul (x * c) (x * c)) l)
    with (map (λ y, y * (c * c)) (map (λ x, x * x) l)).
  2:{ rewrite map_map. apply map_ext. intros x. simpl. lra. }
  rewrite np_mean_scale. simpl.
  rewrite sqrt_mult; [|apply np_mean_squares_nonneg|nra].
  f_equal. apply sqrt_Rsqr_abs.
Qed.

Lemma calc_rms_raw (l : list R) : calc_rms l = raw_rms (remove_dc_bias l).
Proof. reflexivity. Qed.

Lemma calc_rms_scale (c : R) (l : list R) :
  calc_rms (map (λ x, x * c) l) = calc_rms l * Rabs c.
Proof. by rewrite !calc_rms_raw, remove_dc_bias_scale, raw_rms_scale. Qed.

Lemma calc_rms_zero_mean (l : list R) :
  np_mean l = 0 → calc_rms l = raw_rms l.
Proof.
  intros Hm. rewrite calc_rms_raw. unfold remove_dc_bias. rewrite Hm.
  f_equal. rewrite <- (map_id l) at 2. apply map_ext. intros x. simpl. lra.
Qed.

(** the bias-removed mean square is the raw one minus the squared mean *)
Lemma calc_rms_sqr (l : list R) :
  l ≠ [] →
  calc_rms l * calc_rms l
  = np_mean (map (λ x, x * x) l) - np_mean l * np_mean l.
Proof.
  intros Hl. rewrite calc_rms_raw. unfold raw_rms. simpl.
  rewrite sqrt_sqrt by apply np_mean_squares_nonneg.
  unfold remove_dc_bias. rewrite !np_mean_R, np_sum_sq_dev, !length_map.
  rewrite ?IZR_of_nat. pose proof (INR_length_pos l Hl). field. lra.
Qed.

End RealMetrics.

(** C7 (amended): in exact arithmetic, adding a constant [k] to every
    sample leaves the RMS unchanged. *)
Theorem calc_rms_shift_invariant (s : list R) (k : R) :
  calc_rms (map (λ x, x + k)%R s) = calc_rms s.
Proof. by rewrite !calc_rms_raw, remove_dc_bias_shift. Qed.

(** ** Percentiles *)

Section Sorting.
Context {F : Type} `{Arith F}.

Lemma insert_sorted_elem (x y : F) (l : list F) :
  y ∈ insert_sorted x l ↔ y = x ∨ y ∈ l.
Proof.
  induction l as [|z l IH]; simpl.
  - rewrite list_elem_of_singleton, elem_of_nil. tauto.
  - destruct (fleb x z).
    + rewrite elem_of_cons. tauto.
    + rewrite !elem_of_cons, IH. tauto.
Qed.

Lemma insert_sorted_length (x : F) (l : list F) :
  length (insert_sorted x l) = S (length l).
Proof.
  induction l as [|z l IH]; simpl; [done|].
  destruct (fleb x z); simpl; congruence.
Qed.

Lemma np_sort_elem (y : F) (l : list F) : y ∈ np_sort l ↔ y ∈ l.
Proof.
  induction l as [|x l IH]; simpl; [done|].
  rewrite insert_sorted_elem, elem_of_cons, IH. tauto.
Qed.

Lemma np_sort_length (l : list F) : length (np_sort l) = length l.
Proof.
  induction l as [|x l IH]; simpl; [done|].
  by rewrite insert_sorted_length, IH.
Qed.

End Sorting.

Lemma getitem_seq_in_range {A} (l : list A) (i : Z) :
  (0 ≤ i < Z.of_nat (length l))%Z → ∃ x, getitem_seq l i = Ok x ∧ x ∈ l.
Proof.
  intros Hi. unfold getitem_seq.
  destruct (Z.ltb_spec i 0); [lia|].
  destruct (Z.ltb_spec i 0); [lia|].
  destruct (l !! Z.to_nat i) as [x|] eqn:Hx.
  - exists x. split; [done|]. by eapply list_elem_of_lookup_2.
  - apply lookup_ge_None in Hx. lia.
Qed.

Lemma getitem_seq_last {A} (l : list A) :
  l ≠ [] → ∃ x, getitem_seq l (-1) = Ok x ∧ x ∈ l.
Proof.
  intros Hl. unfold getitem_seq.
  assert (0 < length l)%nat by (destruct l; [done|simpl; lia]).
  change (-1 <? 0)%Z with true. cbv iota.
  destruct (Z.ltb_spec (-1 + Z.of_nat (length l)) 0); [lia|].
  destruct (l !! Z.to_nat (-1 + Z.of_nat (length l))) as [x|] eqn:Hx.
  - exists x. split; [done|]. by eapply list_elem_of_lookup_2.
  - apply lookup_ge_None in Hx. lia.
Qed.

Section RealPercentile.
Local Open Scope R_scope.

Lemma lerp_R (a b t : R) : lerp a b t = a + (b - a) * t.
Proof.
  unfold lerp, dec. simpl. destruct (Rleb _ _); lra.
Qed.

(** On a non-empty array and for [q] in [0, 100], the percentile is a value
    between two elements of the array. *)
Lemma np_percentile_R (a : list R) (q : R) :
  a ≠ [] → 0 <= q <= 100 →
  ∃ lo hi gamma,
    lo ∈ a ∧ hi ∈ a ∧ (lo = hi ∨ 0 <= gamma < 1)
    ∧ np_percentile a q = Ok (lo + (hi - lo) * gamma).
Proof.
  intros Ha Hq. unfold np_percentile.
  cbn [of_Z fdiv fmul fsub fleb fltb ffloor real_arith].
  rewrite (Rleb_true 0 (q / 100)) by lra.
  rewrite (Rleb_true (q / 100) 1) by lra.
  cbn [andb negb].
  assert (Hn : (1 ≤ Z.of_nat (length a))%Z)
    by (destruct a; [done|simpl; lia]).
  set (n1 := (Z.of_nat (length a) - 1)%Z).
  assert (Hn1 : 0 <= IZR n1) by (apply IZR_le; lia).
  set (h := IZR n1 * (q / 100)).
  assert (Hh : 0 <= h <= IZR n1) by (unfold h; split; nra).
  rewrite (Rltb_false h 0) by lra.
  assert (Hs : np_sort a ≠ []).
  { intros Hnil. apply (f_equal length) in Hnil.
    rewrite np_sort_length in Hnil. simpl in Hnil. lia. }
  destruct (getitem_seq_last _ Hs) as (xl & Hxl & Hin).
  rewrite Hxl. cbn [mbind outcome_bind].
  destruct (Rle_dec (IZR n1) h) as [Habove|Hbelow].
  - rewrite (Rleb_true _ _ Habove), Hxl. cbn [mbind outcome_bind mret outcome_ret].
    exists xl, xl, (h - IZR (-1)). rewrite lerp_R.
    pose proof (proj1 (np_sort_elem _ _) Hin).
    split; [done|]. split; [done|]. split; [by left|reflexivity].
  - rewrite Rleb_false by lra.
    pose proof (Zfloor_bound h) as Hfl.
    assert (Hlo : (0 ≤ Zfloor h)%Z) by (apply Zfloor_lub; simpl; lra).
    assert (Hhi : (Zfloor h < n1)%Z) by (apply lt_IZR; lra).
    destruct (getitem_seq_in_range (np_sort a) (Zfloor h)) as (x0 & Hx0 & Hin0);
      [rewrite np_sort_length; lia|].
    destruct (getitem_seq_in_range (np_sort a) (Zfloor h + 1))
      as (x1 & Hx1 & Hin1); [rewrite np_sort_length; lia|].
    rewrite Hx0, Hx1. cbn [mbind outcome_bind mret outcome_ret].
    exists x0, x1, (h - IZR (Zfloor h)). rewrite lerp_R.
    pose proof (proj1 (np_sort_elem _ _) Hin0).
    pose proof (proj1 (np_sort_elem _ _) Hin1).
    split; [done|]. split; [done|]. split; [right; lra|reflexivity].
Qed.

(** the same with a predicate closed under interpolation *)
Lemma np_percentile_between (a : list R) (q lo hi : R) :
  a ≠ [] → 0 <= q <= 100 →
  Forall (λ x, lo <= x <= hi) a →
  ∃ v, np_percentile a q = Ok v ∧ lo <= v <= hi.
Proof.
  intros Ha Hq Hall.
  destruct (np_percentile_R a q Ha Hq) as (x0 & x1 & g & H0 & H1 & Hg & ->).
  rewrite Forall_forall in Hall.
  pose proof (Hall _ H0). pose proof (Hall _ H1).
  eexists. split; [reflexivity|].
  destruct Hg as [->|Hg]; [split; nra|]. split; nra.
Qed.

End RealPercentile.

(** C10 (as stated), counterexample: in binary64 the sum of
    [1e308, 1e308] overflows, the mean and every deviation from it are
    infinite, the interpolation subtracts infinity from infinity, and
    [calc_peak] returns NaN, which is not [>= 0]. *)
Lemma calc_peak_nan_binary64 :
  calc_peak (F:=float) [1e308; 1e308]%float default_percentile = Ok nan
  ∧ PrimFloat.leb 0 nan = false.
Proof. split; vm_compute; reflexivity. Qed.

(** C10 (amended): in exact arithmetic, on a non-empty sequence and for a
    percentile in [0, 100], [calc_peak] returns a value, and the value is
    not negative. *)
Theorem calc_peak_nonneg (s : list R) (p : R) :
  s ≠ [] → (0 <= p <= 100)%R →
  ∃ v, calc_peak s p = Ok v ∧ (0 <= v)%R.
Proof.
  intros Hs Hp. unfold calc_peak.
  set (ac := map fabs (remove_dc_bias s)).
  assert (Hne : ac ≠ []).
  { unfold ac, remove_dc_bias. destruct s; [done|]. discriminate. }
  assert (Hpos : Forall (λ x, 0 <= x)%R ac).
  { unfold ac. apply Forall_map, Forall_forall. intros x _. apply Rabs_pos. }
  destruct (np_percentile_R ac p Hne Hp)
    as (x0 & x1 & g & H0 & H1 & Hg & Heq).
  rewrite Forall_forall in Hpos.
  pose proof (Hpos _ H0). pose proof (Hpos _ H1).
  eexists. split; [exact Heq|].
  destruct Hg as [->|Hg]; nra.
Qed.

(** C10 at the sequence [1, -1] with the default percentile. *)
Lemma calc_peak_nonneg_example :
  ∃ v, calc_peak [1; -1]%R default_percentile = Ok v ∧ (0 <= v)%R.
Proof.
  apply calc_peak_nonneg; [discriminate|].
  unfold default_percentile, dec. simpl. lra.
Defined.

(** ** Constant sequences *)

Section RealConstant.
Local Open Scope R_scope.

Lemma np_sum_constant (v : R) (c : list R) :
  Forall (λ x, x = v) c → np_sum c = INR (length c) * v.
Proof.
  induction 1 as [|x c -> _ IH].
  - rewrite np_sum_nil. simpl. lra.
  - rewrite np_sum_cons, IH. cbn [length]. rewrite S_INR. lra.
Qed.

Lemma np_mean_constant (v : R) (c : list R) :
  c ≠ [] → Forall (λ x, x = v) c → np_mean c = v.
Proof.
  intros Hc Hall. rewrite np_mean_R, (np_sum_constant v) by done.
  pose proof (INR_length_pos c Hc). field. lra.
Qed.

Lemma remove_dc_bias_constant (v : R) (c : list R) :
  c ≠ [] → Forall (λ x, x = v) c →
  Forall (λ x, x = 0) (remove_dc_bias c).
Proof.
  intros Hc Hall. unfold remove_dc_bias.
  rewrite (np_mean_constant v) by done.
  apply Forall_map. eapply Forall_impl; [exact Hall|].
  intros x ->. simpl. lra.
Qed.

Lemma raw_rms_zeros (l : list R) : Forall (λ x, x = 0) l → raw_rms l = 0.
Proof.
  intros Hall. unfold raw_rms. rewrite np_mean_R.
  rewrite (np_sum_constant 0).
  - cbn [fsqrt real_arith]. rewrite <- sqrt_0 at 2. f_equal.
    unfold Rdiv. ring.
  - apply Forall_map. eapply Forall_impl; [exact Hall|].
    intros x ->. simpl. lra.
Qed.

End RealConstant.

(** C8 (amended): in exact arithmetic the RMS of a non-empty constant
    sequence is [0], and so is its peak at every percentile in [0, 100]; in
    binary64 the same holds where the mean of the sequence is computed
    without rounding error, as for [0, 0, 0] and [0.5, 0.5, 0.5, 0.5]. *)
Theorem constant_sequence_zero (v : R) (c : list R) (p : R) :
  c ≠ [] → Forall (λ x, x = v) c → (0 <= p <= 100)%R →
  calc_rms c = 0%R
  ∧ calc_peak c p = Ok 0%R
  ∧ calc_rms (F:=float) [0; 0; 0]%float = 0%float
  ∧ calc_peak (F:=float) [0; 0; 0]%float 99.5%float = Ok 0%float
  ∧ calc_rms (F:=float) [0.5; 0.5; 0.5; 0.5]%float = 0%float
  ∧ calc_peak (F:=float) [0.5; 0.5; 0.5; 0.5]%float 99.5%float = Ok 0%float.
Proof.
  intros Hc Hall Hp.
  pose proof (remove_dc_bias_constant v c Hc Hall) as Hzero.
  split.
  { rewrite calc_rms_raw. by apply raw_rms_zeros. }
  split.
  { unfold calc_peak.
    destruct (np_percentile_between (map fabs (remove_dc_bias c)) p 0 0)
      as (x & Hx & Hx0); [| done | |].
    - unfold remove_dc_bias. destruct c; [done|discriminate].
    - apply Forall_map. eapply Forall_impl; [exact Hzero|].
      intros y ->. simpl. rewrite Rabs_R0. lra.
    - rewrite Hx. f_equal. lra. }
  repeat split; vm_compute; reflexivity.
Qed.

(** C8 (amended) at the sequence [1.65, 1.65, 1.65]. *)
Lemma constant_sequence_zero_example :
  calc_rms [165 / 100; 165 / 100; 165 / 100]%R = 0%R
  ∧ calc_peak [165 / 100; 165 / 100; 165 / 100]%R default_percentile = Ok 0%R
  ∧ calc_rms (F:=float) [0; 0; 0]%float = 0%float
  ∧ calc_peak (F:=float) [0; 0; 0]%float 99.5%float = Ok 0%float
  ∧ calc_rms (F:=float) [0.5; 0.5; 0.5; 0.5]%float = 0%float
  ∧ calc_peak (F:=float) [0.5; 0.5; 0.5; 0.5]%float 99.5%float = Ok 0%float.
Proof.
  apply (constant_sequence_zero (165 / 100)%R).
  - discriminate.
  - repeat constructor.
  - unfold default_percentile, dec. simpl. lra.
Defined.

(** ** The synthesizer in exact arithmetic *)

Section Descriptors.
Context {F : Type} `{Trig F}.

Lemma descriptor_freq (wtype : string) (f v : F) :
  getitem_dict (descriptor wtype f v) "freq_hz" = Ok (VNum f).
Proof. reflexivity. Qed.

Lemma descriptor_vrms (wtype : string) (f v : F) :
  getitem_dict (descriptor wtype f v) "vrms_v" = Ok (VNum v).
Proof. reflexivity. Qed.

Lemma descriptor_type (wtype : string) (f v : F) :
  getitem_dict (descriptor wtype f v) "type" = Ok (VStr wtype).
Proof. reflexivity. Qed.

Lemma dimmer_descriptor_freq (duty f v : F) :
  getitem_dict (dimmer_descriptor duty f v) "freq_hz" = Ok (VNum f).
Proof. reflexivity. Qed.

Lemma dimmer_descriptor_vrms (duty f v : F) :
  getitem_dict (dimmer_descriptor duty f v) "vrms_v" = Ok (VNum v).
Proof. reflexivity. Qed.

Lemma dimmer_descriptor_type (duty f v : F) :
  getitem_dict (dimmer_descriptor duty f v) "type" = Ok (VStr "dimmer").
Proof. reflexivity. Qed.

Lemma dimmer_descriptor_duty (duty f v : F) :
  getitem_dict (dimmer_descriptor duty f v) "duty_pct" = Ok (VNum duty).
Proof. reflexivity. Qed.

End Descriptors.

Section RealSynthesizer.
Local Open Scope R_scope.

(** The time grid over the reals: [k * (duration / n)] for [k < n]. *)
Lemma np_linspace_R (duration : R) (n : Z) :
  (0 ≤ n)%Z →
  np_linspace 0 duration n
  = Ok (map (λ k : nat, INR k * (duration / IZR n)) (seq 0 (Z.to_nat n))).
Proof.
  intros Hn. unfold np_linspace, np_arange.
  destruct (Z.ltb_spec n 0); [lia|]. f_equal.
  cbn [of_Z fdiv fmul fsub fadd feqb real_arith].
  destruct (Z.ltb_spec 0 n).
  - match goal with |- context [if ?b then _ else _] => destruct b end;
      rewrite !map_map; apply map_ext; intros k;
      rewrite IZR_of_nat; unfold Rdiv; ring.
  - replace n with 0%Z by lia. reflexivity.
Qed.

Lemma np_linspace_length (duration : R) (n : Z) (t : list R) :
  np_linspace 0 duration n = Ok t → length t = Z.to_nat n.
Proof.
  unfold np_linspace. destruct (Z.ltb_spec n 0); [discriminate|].
  intros [= <-]. rewrite length_map.
  repeat match goal with
         | |- context [if ?b then _ else _] => destruct b
         end;
    unfold np_arange; by rewrite !length_map, length_seq.
Qed.

(** *** Dimmer at zero duty *)

Lemma fmod_lt (x m : R) : 0 < m → fmod x m < m.
Proof.
  intros Hm. cbn [fmod real_trig].
  pose proof (Zfloor_bound (x / m)) as [Hlo Hhi].
  assert (x = x / m * m) as Hx by (field; lra).
  rewrite Hx at 1. nra.
Qed.

Lemma fmod_nonneg (x m : R) : 0 < m → 0 <= fmod x m.
Proof.
  intros Hm. cbn [fmod real_trig].
  pose proof (Zfloor_bound (x / m)) as [Hlo Hhi].
  assert (x = x / m * m) as Hx by (field; lra).
  rewrite Hx at 1. nra.
Qed.

Lemma reference_wave_dimmer_zero (f : R) (params : gmap string (value R))
    (t : list R) :
  getitem_dict params "duty_pct" = Ok (VNum 0) →
  reference_wave params (VNum f) (VStr "dimmer") t
  = Ok (replicate (length t) 0).
Proof.
  intros Hduty. unfold reference_wave.
  change (is_str (VStr "dimmer") "sine") with false.
  change (is_str (VStr "dimmer") "square") with false.
  change (is_str (VStr "dimmer") "triangle") with false.
  change (is_str (VStr "dimmer") "dimmer") with true.
  cbv iota. rewrite Hduty.
  cbn [mbind outcome_bind mret outcome_ret as_num]. f_equal.
  induction t as [|tk t IH]; [reflexivity|].
  cbn [map length replicate]. rewrite IH. f_equal.
  unfold dimmer_sample.
  cbn [of_Z fdiv fmul fsub fleb fpi real_arith real_trig].
  rewrite Rleb_false; [reflexivity|].
  replace (PI * (1 - 0 / 100)) with PI by (unfold Rdiv; ring).
  apply (fmod_lt _ PI), PI_RGT_0.
Qed.

Lemma raw_rms_replicate_zero (n : nat) : raw_rms (replicate n 0) = 0.
Proof.
  apply raw_rms_zeros, Forall_forall. intros x Hx.
  by apply elem_of_replicate in Hx as [-> _].
Qed.

End RealSynthesizer.

Lemma dimmer_zero_duty_exact (f vrms duration : R) (n_points : Z) :
  (0 ≤ n_points)%Z →
  ∃ t, unscaled_reference (dimmer_descriptor 0%R f vrms) duration n_points
         = Ok (t, replicate (Z.to_nat n_points) 0%R, VNum vrms)
       ∧ raw_rms (replicate (Z.to_nat n_points) 0%R) = 0%R
       ∧ generate_reference (dimmer_descriptor 0%R f vrms) duration n_points
         = Ok (t, replicate (Z.to_nat n_points) 0%R).
Proof.
  intros Hn.
  destruct (np_linspace (of_Z 0) duration n_points) as [t|e] eqn:Ht.
  2:{ cbn [of_Z real_arith] in Ht. by rewrite np_linspace_R in Ht. }
  exists t.
  assert (Hun : unscaled_reference (dimmer_descriptor 0%R f vrms) duration
                  n_points
                = Ok (t, replicate (Z.to_nat n_points) 0%R, VNum vrms)).
  { unfold unscaled_reference. rewrite Ht.
    rewrite dimmer_descriptor_freq, dimmer_descriptor_vrms,
      dimmer_descriptor_type.
    cbn [mbind outcome_bind].
    rewrite (reference_wave_dimmer_zero f); [|apply dimmer_descriptor_duty].
    rewrite (np_linspace_length duration n_points t Ht). reflexivity. }
  split; [exact Hun|]. split; [apply raw_rms_replicate_zero|].
  unfold generate_reference. rewrite Hun.
  cbn [mbind outcome_bind]. unfold rescale.
  rewrite raw_rms_replicate_zero.
  cbn [of_Z fltb real_arith]. rewrite Rltb_false by lra. reflexivity.
Qed.

(** ** The all-zero wave in binary64 *)

Section ZeroWave.

Lemma float_of_prim (x : float) (y : spec_float) :
  Prim2SF x = y → x = SF2Prim y.
Proof. intros <-. symmetry. apply SF2Prim_Prim2SF. Qed.

Lemma float_sum_zeros (n : nat) :
  np_sum (F:=float) (replicate n 0%float) = 0%float.
Proof.
  unfold np_sum. change (of_Z (Arith:=float_arith) 0) with 0%float.
  induction n as [|n IH]; [reflexivity|].
  cbn [replicate fold_left]. exact IH.
Qed.

Lemma zero_over_grid : forallb zero_over (seq 1 10000) = true.
Proof. vm_compute. reflexivity. Qed.

Lemma float_zero_over (n : nat) :
  (1 ≤ n ≤ 10000)%nat → (0 / float_of_Z (Z.of_nat n))%float = 0%float.
Proof.
  intros Hn. pose proof zero_over_grid as Hall.
  rewrite forallb_forall in Hall.
  assert (Hin : In n (seq 1 10000)) by (apply in_seq; lia).
  specialize (Hall n Hin). unfold zero_over in Hall.
  destruct (Prim2SF (0 / float_of_Z (Z.of_nat n))%float) as [[]| | |] eqn:Hz;
    try discriminate.
  by apply float_of_prim in Hz.
Qed.

Lemma float_raw_rms_zeros (n : nat) :
  (1 ≤ n ≤ 10000)%nat → raw_rms (F:=float) (replicate n 0%float) = 0%float.
Proof.
  intros Hn. unfold raw_rms, np_mean.
  assert (Hsq : map (λ w : float, fmul w w) (replicate n 0%float)
                = replicate n 0%float).
  { induction n as [|k IH]; [reflexivity|].
    cbn [replicate map]. f_equal.
    destruct k as [|k]; [reflexivity|]. apply IH. lia. }
  rewrite Hsq, float_sum_zeros, length_replicate.
  cbn [fdiv fsqrt of_Z float_arith]. by rewrite float_zero_over.
Qed.

(** what the scaling would compute on a zero sample of a wave whose raw RMS
    is zero *)
Lemma zero_times_quotient_nan (v : float) :
  PrimFloat.is_nan (0 * (v / 0))%float = true.
Proof.
  unfold PrimFloat.is_nan.
  rewrite FloatAxioms.eqb_spec, FloatAxioms.mul_spec, FloatAxioms.div_spec.
  change (Prim2SF 0%float) with (S754_zero false).
  by destruct (Prim2SF v) as [[]|[]| |[] m e].
Qed.

End ZeroWave.

Lemma dimmer_zero_duty_empty_grid `{Trig F} (f vrms duration : F) :
  unscaled_reference (dimmer_descriptor (of_Z 0) f vrms) duration 0
  = Ok ([], [], VNum vrms).
Proof.
  unfold unscaled_reference.
  rewrite dimmer_descriptor_freq, dimmer_descriptor_vrms,
    dimmer_descriptor_type.
  cbn [np_linspace Z.ltb Z.compare mbind outcome_bind].
  unfold reference_wave.
  change (is_str (VStr "dimmer") "sine") with false.
  change (is_str (VStr "dimmer") "square") with false.
  change (is_str (VStr "dimmer") "triangle") with false.
  change (is_str (VStr "dimmer") "dimmer") with true.
  cbv iota. rewrite dimmer_descriptor_duty. reflexivity.
Qed.

(** C5 (as stated), counterexample: with [n_points = 0] the wave of a dimmer
    descriptor with [duty_pct = 0] is empty, in every arithmetic, and the
    raw RMS of the empty wave is [0.0 / 0], NaN in binary64, not zero. *)
Lemma dimmer_zero_duty_empty_grid_nan :
  (∀ (F : Type) (A : Arith F) (T : Trig F) (f vrms duration : F),
      unscaled_reference (dimmer_descriptor (of_Z 0) f vrms) duration 0
      = Ok ([], [], VNum vrms))
  ∧ PrimFloat.is_nan (raw_rms (F:=float) []) = true
  ∧ raw_rms (F:=float) [] ≠ 0%float.
Proof.
  split; [intros; apply dimmer_zero_duty_empty_grid|].
  split; [vm_compute; reflexivity|]. vm_compute. discriminate.
Qed.

(** C5 (amended): in exact arithmetic and for [n_points >= 1], the wave of a
    dimmer descriptor with [duty_pct = 0] is all zeros before scaling, its
    raw RMS is [0], and [generate_reference] returns the zeros unscaled.
    They are returned because of the guard [rms_raw > 0]: in every
    arithmetic a wave whose raw RMS is not positive is returned as it is.
    In binary64 an all-zero wave of 1 to 10000 samples has raw RMS [0.0]
    and is returned unchanged, where the scaling would have computed the
    NaN [0.0 * (vrms / 0.0)]; the empty wave of [n_points = 0] has raw RMS
    NaN and is returned unchanged as well. *)
Theorem dimmer_zero_duty_left_unscaled :
  (∀ (f vrms duration : R) (n_points : Z),
      (1 ≤ n_points)%Z →
      ∃ t, unscaled_reference (dimmer_descriptor 0%R f vrms) duration n_points
             = Ok (t, replicate (Z.to_nat n_points) 0%R, VNum vrms)
           ∧ raw_rms (replicate (Z.to_nat n_points) 0%R) = 0%R
           ∧ generate_reference (dimmer_descriptor 0%R f vrms) duration
               n_points
             = Ok (t, replicate (Z.to_nat n_points) 0%R))
  ∧ (∀ (F : Type) (A : Arith F) (vrms : value F) (wave : list F),
        fltb (of_Z 0) (raw_rms wave) = false → rescale vrms wave = Ok wave)
  ∧ (∀ (vrms : float) (n : nat),
        (1 ≤ n ≤ 10000)%nat →
        raw_rms (replicate n 0%float) = 0%float
        ∧ rescale (VNum vrms) (replicate n 0%float)
          = Ok (replicate n 0%float)
        ∧ PrimFloat.is_nan
            (0 * (vrms / raw_rms (replicate n 0%float)))%float = true)
  ∧ (∀ (F : Type) (A : Arith F) (T : Trig F) (f vrms duration : F),
        unscaled_reference (dimmer_descriptor (of_Z 0) f vrms) duration 0
        = Ok ([], [], VNum vrms))
  ∧ (∀ vrms : float,
        PrimFloat.is_nan (raw_rms (F:=float) []) = true
        ∧ rescale (VNum vrms) [] = Ok []).
Proof.
  split.
  { intros f vrms duration n_points Hn. apply dimmer_zero_duty_exact. lia. }
  split.
  { intros F A vrms wave Hguard. unfold rescale. by rewrite Hguard. }
  split.
  - intros vrms n Hn. pose proof (float_raw_rms_zeros n Hn) as Hrms.
    split; [exact Hrms|]. split.
    + unfold rescale. rewrite Hrms. reflexivity.
    + rewrite Hrms. apply zero_times_quotient_nan.
  - split; [intros; apply dimmer_zero_duty_empty_grid|].
    intros vrms. split; vm_compute; reflexivity.
Qed.

(** C5 (amended) at [dimmer_0pct_60hz_118mVrms] with the default grid. *)
Lemma dimmer_zero_duty_default_grid :
  ∃ t, unscaled_reference (dimmer_descriptor 0%R 60%R (118 / 1000)%R)
         default_duration default_n_points
         = Ok (t, replicate (Z.to_nat default_n_points) 0%R,
               VNum (118 / 1000)%R)
       ∧ raw_rms (replicate (Z.to_nat default_n_points) 0%R) = 0%R
       ∧ generate_reference (dimmer_descriptor 0%R 60%R (118 / 1000)%R)
           default_duration default_n_points
         = Ok (t, replicate (Z.to_nat default_n_points) 0%R).
Proof.
  apply (proj1 dimmer_zero_duty_left_unscaled).
  unfold default_n_points. lia.
Defined.

(** ** Scaling to the target RMS *)

Section Scaling.
Context {F : Type} `{Trig F}.

(** In every arithmetic: past the guard [rms_raw > 0] the output is the
    unscaled wave times the one factor [vrms / rms_raw]. *)
Lemma generate_reference_guarded (params : gmap string (value F))
    (duration : F) (n_points : Z) (t wave : list F) (vrms : F) :
  unscaled_reference params duration n_points = Ok (t, wave, VNum vrms) →
  fltb (of_Z 0) (raw_rms wave) = true →
  generate_reference params duration n_points
  = Ok (t, map (λ w, w * (vrms / raw_rms wave))%num wave).
Proof.
  intros Hun Hpos. unfold generate_reference. rewrite Hun.
  cbn [mbind outcome_bind]. unfold rescale. rewrite Hpos. reflexivity.
Qed.

(** and behind it the wave is returned as it is *)
Lemma generate_reference_unguarded (params : gmap string (value F))
    (duration : F) (n_points : Z) (t wave : list F) (vrms : value F) :
  unscaled_reference params duration n_points = Ok (t, wave, vrms) →
  fltb (of_Z 0) (raw_rms wave) = false →
  generate_reference params duration n_points = Ok (t, wave).
Proof.
  intros Hun Hpos. unfold generate_reference. rewrite Hun.
  cbn [mbind outcome_bind]. unfold rescale. rewrite Hpos. reflexivity.
Qed.

End Scaling.

Section RealScaling.
Local Open Scope R_scope.

Lemma generate_reference_scaled (params : gmap string (value R))
    (duration : R) (n_points : Z) (t wave : list R) (vrms : R) :
  unscaled_reference params duration n_points = Ok (t, wave, VNum vrms) →
  0 < raw_rms wave →
  generate_reference params duration n_points
  = Ok (t, map (λ w, w * (vrms / raw_rms wave)) wave).
Proof.
  intros Hun Hpos.
  rewrite (generate_reference_guarded _ _ _ _ _ _ Hun); [reflexivity|].
  cbn [of_Z fltb real_arith]. by apply Rltb_true.
Qed.

Lemma raw_rms_nonneg (l : list R) : 0 <= raw_rms l.
Proof. unfold raw_rms. apply sqrt_pos. Qed.

Lemma calc_rms_nonneg (l : list R) : 0 <= calc_rms l.
Proof. rewrite calc_rms_raw. apply raw_rms_nonneg. Qed.

End RealScaling.

(** C9 (as stated), counterexample: in binary64 the products are rounded.
    With the target [5e-324] the constant [vrms / rms_raw] is positive and
    the sample [0.3] is scaled to [0.0], its sign lost; with the target
    [1e308] on the wave [0, 1e-10] the constant overflows to infinity and
    the zero sample becomes NaN. *)
Lemma rescale_loses_sign_binary64 :
  (PrimFloat.ltb 0 (raw_rms [1; -1; 0.3; -0.3]%float) = true
   ∧ PrimFloat.ltb 0 (5e-324 / raw_rms [1; -1; 0.3; -0.3]%float) = true
   ∧ rescale (VNum 5e-324%float) [1; -1; 0.3; -0.3]%float
     = Ok [5e-324; -5e-324; 0; -0]%float)
  ∧ (PrimFloat.ltb 0 (raw_rms [0; 1e-10]%float) = true
     ∧ PrimFloat.ltb 0 1e308 = true
     ∧ rescale (VNum 1e308%float) [0; 1e-10]%float = Ok [nan; infinity]).
Proof. repeat split; vm_compute; reflexivity. Qed.

(** C9 (amended): in exact arithmetic, when the wave before scaling has
    positive raw RMS and the target RMS is positive, the output is that wave
    multiplied sample by sample by the one positive constant
    [vrms / raw_rms]; zero samples stay zero and every sample keeps its
    sign. *)
Theorem rescale_is_positive_scaling (params : gmap string (value R))
    (duration : R) (n_points : Z) (t wave : list R) (vrms : R) :
  unscaled_reference params duration n_points = Ok (t, wave, VNum vrms) →
  (0 < raw_rms wave)%R → (0 < vrms)%R →
  (0 < vrms / raw_rms wave)%R
  ∧ ∃ out,
      generate_reference params duration n_points = Ok (t, out)
      ∧ out = map (λ w, w * (vrms / raw_rms wave))%R wave
      ∧ Forall2 (λ w o, (w = 0 → o = 0) ∧ (0 < w → 0 < o) ∧ (w < 0 → o < 0))%R
          wave out.
Proof.
  intros Hun Hraw Hv.
  assert (Hc : (0 < vrms / raw_rms wave)%R) by by apply Rdiv_lt_0_compat.
  split; [exact Hc|]. eexists. split; [by apply generate_reference_scaled|].
  split; [reflexivity|].
  apply Forall2_fmap_r, Forall_Forall2_diag, Forall_forall.
  intros w _. repeat split; intros; nra.
Qed.

(** What the scaling achieves: when the wave before scaling has positive
    raw RMS, the output's square root of the mean of squares, which is what
    [generate_reference] normalises, equals a non-negative target RMS,
    whatever the mean of the wave (exact arithmetic). *)
Lemma raw_round_trip (params : gmap string (value R))
    (duration : R) (n_points : Z) (t wave : list R) (vrms : R) :
  unscaled_reference params duration n_points = Ok (t, wave, VNum vrms) →
  (0 < raw_rms wave)%R → (0 <= vrms)%R →
  ∃ out,
    generate_reference params duration n_points = Ok (t, out)
    ∧ out = map (λ w, w * (vrms / raw_rms wave))%R wave
    ∧ raw_rms out = vrms.
Proof.
  intros Hun Hraw Hv.
  eexists. split; [by apply generate_reference_scaled|].
  split; [reflexivity|].
  assert (Hc : (0 <= vrms / raw_rms wave)%R).
  { apply Rmult_le_pos; [done|]. left. by apply Rinv_0_lt_compat. }
  rewrite raw_rms_scale, Rabs_pos_eq by done. field; lra.
Qed.

(** When that wave also has zero mean, [calc_rms] of the output, which
    removes the mean first, equals the target RMS too. *)
Lemma round_trip_zero_mean (params : gmap string (value R))
    (duration : R) (n_points : Z) (t wave : list R) (vrms : R) :
  unscaled_reference params duration n_points = Ok (t, wave, VNum vrms) →
  (0 < raw_rms wave)%R → (0 <= vrms)%R → np_mean wave = 0%R →
  ∃ out,
    generate_reference params duration n_points = Ok (t, out)
    ∧ raw_rms out = vrms
    ∧ calc_rms out = vrms.
Proof.
  intros Hun Hraw Hv Hmean.
  destruct (raw_round_trip _ _ _ _ _ _ Hun Hraw Hv) as (out & Hgen & -> & Hrms).
  exists (map (λ w, w * (vrms / raw_rms wave))%R wave).
  split; [exact Hgen|]. split; [exact Hrms|].
  assert (Hc : (0 <= vrms / raw_rms wave)%R).
  { apply Rmult_le_pos; [done|]. left. by apply Rinv_0_lt_compat. }
  rewrite calc_rms_scale, (calc_rms_zero_mean wave Hmean).
  rewrite Rabs_pos_eq by done. field; lra.
Qed.

(** ** Concrete descriptors on the default grid *)

Section RealFamilies.
Local Open Scope R_scope.

Lemma unscaled_reference_triangle (f v duration : R) (n : Z) :
  (0 ≤ n)%Z →
  unscaled_reference (descriptor "triangle" f v) duration n
  = Ok (map (λ k : nat, INR k * (duration / IZR n)) (seq 0 (Z.to_nat n)),
        map (triangle_sample f)
          (map (λ k : nat, INR k * (duration / IZR n)) (seq 0 (Z.to_nat n))),
        VNum v).
Proof.
  intros Hn. unfold unscaled_reference. cbn [of_Z real_arith].
  rewrite np_linspace_R by done.
  rewrite descriptor_freq, descriptor_vrms, descriptor_type. reflexivity.
Qed.

Lemma unscaled_reference_sine (f v duration : R) (n : Z) :
  (0 ≤ n)%Z →
  unscaled_reference (descriptor "sine" f v) duration n
  = Ok (map (λ k : nat, INR k * (duration / IZR n)) (seq 0 (Z.to_nat n)),
        map (sine_sample f)
          (map (λ k : nat, INR k * (duration / IZR n)) (seq 0 (Z.to_nat n))),
        VNum v).
Proof.
  intros Hn. unfold unscaled_reference. cbn [of_Z real_arith].
  rewrite np_linspace_R by done.
  rewrite descriptor_freq, descriptor_vrms, descriptor_type. reflexivity.
Qed.

(** *** Sums over whole periods *)

Lemma map_seq_shift (g : nat → R) (a len : nat) :
  map g (seq a len) = map (λ k, g (k + a)%nat) (seq 0 len).
Proof.
  revert g a. induction len as [|len IH]; intros g a; [reflexivity|].
  cbn [seq map]. f_equal.
  rewrite (IH g (S a)), (IH (λ k, g (k + a)%nat) 1%nat).
  apply map_ext. intros k. f_equal. lia.
Qed.

Lemma periodic_multiple (g : nat → R) (p m k : nat) :
  (∀ j, g (j + p)%nat = g j) → g (k + m * p)%nat = g k.
Proof.
  intros Hper. induction m as [|m IH]; simpl.
  - f_equal. lia.
  - replace (k + (p + m * p))%nat with ((k + m * p) + p)%nat by lia.
    by rewrite Hper.
Qed.

Lemma np_sum_periodic (g : nat → R) (p m : nat) :
  (∀ j, g (j + p)%nat = g j) →
  np_sum (map g (seq 0 (m * p))) = INR m * np_sum (map g (seq 0 p)).
Proof.
  intros Hper. induction m as [|m IH].
  - simpl. rewrite np_sum_nil. lra.
  - replace (S m * p)%nat with (m * p + p)%nat by lia.
    rewrite seq_app, map_app, np_sum_app, IH, S_INR. cbn [Nat.add].
    rewrite (map_seq_shift g (m * p) p).
    rewrite (map_ext (λ k, g (k + m * p)%nat) g)
      by (intros k; by apply periodic_multiple).
    lra.
Qed.

(** *** The triangle at 2000 Hz: five samples per period *)

Lemma fmod_small (x m : R) : 0 <= x < m → fmod x m = x.
Proof.
  intros Hx. cbn [fmod real_trig].
  rewrite (Zfloor_eq 0); [lra|].
  split.
  - apply Rmult_le_pos; [lra|]. left. apply Rinv_0_lt_compat. lra.
  - apply (Rmult_lt_reg_r m); [lra|].
    replace (x / m * m) with x by (field; lra). lra.
Qed.

Lemma fmod_1_period (y : R) : fmod (y + 1) 1 = fmod y 1.
Proof.
  cbn [fmod real_trig].
  replace ((y + 1) / 1) with (y / 1 + IZR 1) by (unfold Rdiv; field).
  rewrite Zfloor_addz, plus_IZR. lra.
Qed.

Lemma triangle_2000_period (k : nat) :
  triangle_sample 2000 (INR (k + 5) * (1 / 10000))
  = triangle_sample 2000 (INR k * (1 / 10000)).
Proof.
  unfold triangle_sample. cbn [of_Z fmul fsub fabs real_arith].
  replace (2000 * (INR (k + 5) * (1 / 10000)))
    with (2000 * (INR k * (1 / 10000)) + 1).
  - by rewrite fmod_1_period.
  - rewrite plus_INR. simpl. field.
Qed.

Lemma triangle_sample_small (f tk : R) :
  0 <= f * tk < 1 →
  triangle_sample f tk = 4 * Rabs (f * tk - 1 / 2) - 1.
Proof.
  intros Hx. unfold triangle_sample, dec.
  cbn [of_Z fmul fsub fdiv fabs real_arith]. by rewrite fmod_small.
Qed.

Lemma triangle_2000_values :
  map (λ k : nat, triangle_sample 2000 (INR k * (1 / 10000))) (seq 0 5)
  = [1; 1 / 5; - (3 / 5); - (3 / 5); 1 / 5].
Proof.
  cbn [seq map INR].
  rewrite !triangle_sample_small by lra.
  repeat f_equal.
  - rewrite Rabs_left by lra. lra.
  - rewrite Rabs_left by lra. lra.
  - rewrite Rabs_left by lra. lra.
  - rewrite Rabs_right by lra. lra.
  - rewrite Rabs_right by lra. lra.
Qed.

End RealFamilies.

Section Triangle2000.
Local Open Scope R_scope.

Lemma default_grid_R :
  map (λ k : nat, INR k * (default_duration / IZR default_n_points))
    (seq 0 (Z.to_nat default_n_points))
  = map (λ k : nat, INR k * (1 / 10000)) (seq 0 (2000 * 5)).
Proof. reflexivity. Qed.

Lemma INR_2000 : INR 2000 = 2000.
Proof. rewrite INR_IZR_INZ. reflexivity. Qed.

Lemma INR_10000 : INR (2000 * 5) = 10000.
Proof. rewrite mult_INR, INR_2000. simpl. lra. Qed.

(** mean and mean square of the unscaled 2000 Hz triangle on the default
    grid *)
Lemma triangle_2000_mean :
  np_mean (map (triangle_sample 2000)
             (map (λ k : nat, INR k * (1 / 10000)) (seq 0 (2000 * 5))))
  = 1 / 25.
Proof.
  rewrite np_mean_R, !length_map, length_seq, INR_10000, map_map.
  rewrite (np_sum_periodic _ 5 2000 triangle_2000_period).
  rewrite triangle_2000_values, !np_sum_cons, np_sum_nil, INR_2000. lra.
Qed.

Lemma triangle_2000_mean_square :
  np_mean (map (λ w, w * w)
             (map (triangle_sample 2000)
                (map (λ k : nat, INR k * (1 / 10000)) (seq 0 (2000 * 5)))))
  = 9 / 25.
Proof.
  rewrite np_mean_R, !length_map, length_seq, INR_10000, !map_map.
  rewrite (np_sum_periodic
             (λ k, triangle_sample 2000 (INR k * (1 / 10000))
                   * triangle_sample 2000 (INR k * (1 / 10000))) 5 2000)
    by (intros j; by rewrite triangle_2000_period).
  rewrite <- (map_map (λ k : nat, triangle_sample 2000 (INR k * (1 / 10000)))
                (λ w, w * w)).
  rewrite triangle_2000_values. cbn [map].
  rewrite !np_sum_cons, np_sum_nil, INR_2000. lra.
Qed.

Lemma triangle_2000_raw_rms :
  raw_rms (map (triangle_sample 2000)
             (map (λ k : nat, INR k * (1 / 10000)) (seq 0 (2000 * 5))))
  = 3 / 5.
Proof.
  unfold raw_rms.
  change (np_mean (map (λ w : R, fmul w w) ?l))
    with (np_mean (map (λ w : R, w * w) l)).
  rewrite triangle_2000_mean_square. cbn [fsqrt real_arith].
  replace (9 / 25) with ((3 / 5) * (3 / 5)) by lra.
  apply sqrt_square. lra.
Qed.

End Triangle2000.

(** C1, the failing input: the descriptor of [triangle_2000hz_100mVrms] on
    the default grid (duration 1.0, n_points 10000).  The docstring
    promises a wave whose RMS is the nominal Vrms, and the caller takes the
    wave to be free of DC.  Five samples per period,
    [1, 1/5, -3/5, -3/5, 1/5], have mean [1/25]; the output is normalised
    to a raw RMS of 0.1, keeps a mean of [1/150], and [calc_rms], which
    removes that mean, returns less than 0.0999 (exact arithmetic; the
    triangle is continuous, so a rounded phase moves a sample by its own
    rounding error only). *)
Lemma round_trip_fails_triangle_2000hz :
  ∃ t out,
    generate_reference (descriptor "triangle" 2000%R (1 / 10)%R)
      default_duration default_n_points = Ok (t, out)
    ∧ raw_rms out = (1 / 10)%R
    ∧ np_mean out = (1 / 150)%R
    ∧ (calc_rms out < 1 / 10 - 1 / 10000)%R.
Proof.
  pose proof (unscaled_reference_triangle 2000 (1 / 10) default_duration
                default_n_points ltac:(done)) as Hun.
  rewrite default_grid_R in Hun.
  do 2 eexists. split.
  { apply (generate_reference_scaled _ _ _ _ _ _ Hun).
    rewrite triangle_2000_raw_rms. lra. }
  rewrite raw_rms_scale, calc_rms_scale, np_mean_scale, triangle_2000_raw_rms.
  rewrite Rabs_pos_eq by lra. split; [lra|].
  split; [rewrite triangle_2000_mean; lra|].
  set (wave := map (triangle_sample 2000%R) _).
  pose proof (calc_rms_nonneg wave) as Hnn.
  assert (Hne : wave ≠ []) by discriminate.
  pose proof (calc_rms_sqr wave Hne) as Hsq.
  unfold wave in Hsq at 3 4 5.
  rewrite triangle_2000_mean_square, triangle_2000_mean in Hsq.
  nra.
Qed.

(** C9 at [triangle_2000hz_100mVrms] on the default grid: the scaling
    constant is [(1/10) / (3/5)]. *)
Lemma rescale_is_positive_scaling_triangle :
  ∃ t wave,
    unscaled_reference (descriptor "triangle" 2000%R (1 / 10)%R)
      default_duration default_n_points = Ok (t, wave, VNum (1 / 10)%R)
    ∧ (0 < 1 / 10 / raw_rms wave)%R
    ∧ ∃ out,
        generate_reference (descriptor "triangle" 2000%R (1 / 10)%R)
          default_duration default_n_points = Ok (t, out)
        ∧ out = map (λ w, w * (1 / 10 / raw_rms wave))%R wave
        ∧ Forall2
            (λ w o, (w = 0 → o = 0) ∧ (0 < w → 0 < o) ∧ (w < 0 → o < 0))%R
            wave out.
Proof.
  pose proof (unscaled_reference_triangle 2000 (1 / 10) default_duration
                default_n_points ltac:(done)) as Hun.
  rewrite default_grid_R in Hun.
  do 2 eexists. split; [exact Hun|].
  apply (rescale_is_positive_scaling _ _ _ _ _ _ Hun).
  - rewrite triangle_2000_raw_rms. lra.
  - lra.
Defined.

(** ** The 60 Hz sine on the default grid *)

Section Sine60.
Local Open Scope R_scope.

(** Lagrange's identity for a sum of sines in arithmetic progression. *)
Lemma sin_sum_telescope (x : R) (n : nat) :
  2 * sin (x / 2) * np_sum (map (λ k : nat, sin (INR k * x)) (seq 0 n))
  = cos (x / 2) - cos (INR n * x - x / 2).
Proof.
  induction n as [|n IH].
  - simpl. rewrite np_sum_nil.
    replace (0 * x - x / 2) with (- (x / 2)) by lra.
    rewrite cos_neg. lra.
  - rewrite seq_S, map_app, np_sum_app. cbn [map Nat.add].
    rewrite np_sum_cons, np_sum_nil, S_INR.
    replace ((INR n + 1) * x - x / 2) with (INR n * x + x / 2) by lra.
    rewrite cos_plus.
    rewrite cos_minus in IH. nra.
Qed.

Lemma sine_60_sample (k : nat) :
  sine_sample 60 (INR k * (1 / 10000)) = sin (INR k * (3 * PI / 250)).
Proof.
  unfold sine_sample. cbn [of_Z fmul fsin fpi real_arith real_trig].
  f_equal. field.
Qed.

Lemma sine_60_sum :
  np_sum (map (sine_sample 60)
            (map (λ k : nat, INR k * (1 / 10000)) (seq 0 (2000 * 5)))) = 0.
Proof.
  rewrite map_map.
  rewrite (map_ext _ (λ k : nat, sin (INR k * (3 * PI / 250))))
    by apply sine_60_sample.
  pose proof (sin_sum_telescope (3 * PI / 250) (2000 * 5)) as Htel.
  rewrite INR_10000 in Htel.
  replace (10000 * (3 * PI / 250) - 3 * PI / 250 / 2)
    with (- (3 * PI / 250 / 2) + 2 * INR 60 * PI) in Htel
    by (rewrite INR_IZR_INZ; simpl; field).
  rewrite cos_period, cos_neg in Htel.
  pose proof PI_RGT_0 as Hpi.
  assert (Hs : 0 < sin (3 * PI / 250 / 2)) by (apply sin_gt_0; lra).
  nra.
Qed.

Lemma sine_60_mean :
  np_mean (map (sine_sample 60)
             (map (λ k : nat, INR k * (1 / 10000)) (seq 0 (2000 * 5)))) = 0.
Proof. rewrite np_mean_R, sine_60_sum. unfold Rdiv. ring. Qed.

Lemma np_sum_ge_elem (x : R) (l : list R) :
  Forall (λ y, 0 <= y) l → x ∈ l → x <= np_sum l.
Proof.
  induction 1 as [|y l Hy Hl IH]; intros Hx.
  - by apply elem_of_nil in Hx.
  - rewrite np_sum_cons. pose proof (np_sum_nonneg l Hl).
    apply elem_of_cons in Hx as [->|Hx]; [lra|]. specialize (IH Hx). lra.
Qed.

Lemma sine_60_raw_rms_pos :
  0 < raw_rms (map (sine_sample 60)
                 (map (λ k : nat, INR k * (1 / 10000)) (seq 0 (2000 * 5)))).
Proof.
  unfold raw_rms. cbn [fsqrt real_arith]. apply sqrt_lt_R0.
  rewrite np_mean_R, !length_map, length_seq, INR_10000.
  apply Rdiv_lt_0_compat; [|lra].
  pose proof PI_RGT_0 as Hpi.
  assert (Hs : 0 < sin (INR 1 * (3 * PI / 250)))
    by (apply sin_gt_0; simpl; lra).
  eapply Rlt_le_trans; [|apply np_sum_ge_elem].
  - apply (Rmult_lt_0_compat _ _ Hs Hs).
  - apply Forall_map, Forall_forall. intros w _. simpl. nra.
  - rewrite <- sine_60_sample.
    apply (list_elem_of_fmap_2 (λ w : R, w * w)).
    rewrite map_map.
    apply (list_elem_of_fmap_2
             (λ k : nat, sine_sample 60 (INR k * (1 / 10000))) _ 1%nat).
    apply elem_of_seq. lia.
Qed.

End Sine60.

(** X18: in exact arithmetic, when the wave before scaling has positive raw
    RMS and the target is not negative, the output is the wave times
    [vrms / rms_raw] and its square root of the mean of squares, taken
    without removing the mean, is the target, whatever the mean of the
    wave. *)
Theorem scaled_wave_raw_rms (params : gmap string (value R))
    (duration : R) (n_points : Z) (t wave : list R) (vrms : R) :
  unscaled_reference params duration n_points = Ok (t, wave, VNum vrms) →
  (0 < raw_rms wave)%R → (0 <= vrms)%R →
  ∃ out,
    generate_reference params duration n_points = Ok (t, out)
    ∧ out = map (λ w, w * (vrms / raw_rms wave))%R wave
    ∧ raw_rms out = vrms.
Proof. apply raw_round_trip. Qed.

(** X18 at [triangle_2000hz_100mVrms] on the default grid. *)
Lemma scaled_wave_raw_rms_triangle :
  ∃ t wave,
    unscaled_reference (descriptor "triangle" 2000%R (1 / 10)%R)
      default_duration default_n_points = Ok (t, wave, VNum (1 / 10)%R)
    ∧ ∃ out,
        generate_reference (descriptor "triangle" 2000%R (1 / 10)%R)
          default_duration default_n_points = Ok (t, out)
        ∧ out = map (λ w, w * (1 / 10 / raw_rms wave))%R wave
        ∧ raw_rms out = (1 / 10)%R.
Proof.
  pose proof (unscaled_reference_triangle 2000 (1 / 10) default_duration
                default_n_points ltac:(done)) as Hun.
  rewrite default_grid_R in Hun.
  do 2 eexists. split; [exact Hun|].
  apply (scaled_wave_raw_rms _ _ _ _ _ _ Hun).
  - rewrite triangle_2000_raw_rms. lra.
  - lra.
Defined.

(** X19: in exact arithmetic, when the wave before scaling has positive raw
    RMS and zero mean and the target is not negative, [calc_rms] of the
    output, which removes the mean first, is the target. *)
Theorem scaled_wave_rms_zero_mean (params : gmap string (value R))
    (duration : R) (n_points : Z) (t wave : list R) (vrms : R) :
  unscaled_reference params duration n_points = Ok (t, wave, VNum vrms) →
  (0 < raw_rms wave)%R → (0 <= vrms)%R → np_mean wave = 0%R →
  ∃ out,
    generate_reference params duration n_points = Ok (t, out)
    ∧ raw_rms out = vrms
    ∧ calc_rms out = vrms.
Proof. apply round_trip_zero_mean. Qed.

(** X19 at the spec's scenario: sine, f = 60, target RMS 33.85 mV,
    duration 1.0, n = 10000.  The 10000 samples cover 60 whole periods and
    sum to zero. *)
Lemma scaled_wave_rms_sine_60hz :
  ∃ t out,
    generate_reference (descriptor "sine" 60%R (3385 / 100000)%R)
      default_duration default_n_points = Ok (t, out)
    ∧ raw_rms out = (3385 / 100000)%R
    ∧ calc_rms out = (3385 / 100000)%R.
Proof.
  pose proof (unscaled_reference_sine 60 (3385 / 100000) default_duration
                default_n_points ltac:(done)) as Hun.
  rewrite default_grid_R in Hun.
  eexists.
  apply (scaled_wave_rms_zero_mean _ _ _ _ _ _ Hun).
  - apply sine_60_raw_rms_pos.
  - lra.
  - apply sine_60_mean.
Defined.

(** * Further properties of the metrics *)

Section RealBias.
Local Open Scope R_scope.

Lemma remove_dc_bias_length `{Arith F} (s : list F) :
  length (remove_dc_bias s) = length s.
Proof. unfold remove_dc_bias. apply length_map. Qed.

Lemma np_mean_remove_dc_bias (s : list R) :
  s ≠ [] → np_mean (remove_dc_bias s) = 0.
Proof.
  intros Hs. unfold remove_dc_bias.
  rewrite np_mean_R, length_map, np_sum_shift, np_mean_R.
  pose proof (INR_length_pos s Hs). field. lra.
Qed.

End RealBias.

(** X1: bias removal leaves a sequence of the same length whose mean is
    zero, removing the bias again changes nothing, and the RMS of the
    bias-removed sequence is the RMS of the original (exact arithmetic). *)
Theorem remove_dc_bias_idempotent (s : list R) :
  s ≠ [] →
  length (remove_dc_bias s) = length s
  ∧ np_mean (remove_dc_bias s) = 0%R
  ∧ remove_dc_bias (remove_dc_bias s) = remove_dc_bias s
  ∧ calc_rms (remove_dc_bias s) = calc_rms s.
Proof.
  intros Hs. split; [apply remove_dc_bias_length|].
  pose proof (np_mean_remove_dc_bias s Hs) as Hm.
  split; [exact Hm|].
  assert (Hid : remove_dc_bias (remove_dc_bias s) = remove_dc_bias s).
  { unfold remove_dc_bias at 1. rewrite Hm.
    rewrite <- (map_id (remove_dc_bias s)) at 2.
    apply map_ext. intros x. simpl. lra. }
  split; [exact Hid|]. by rewrite !calc_rms_raw, Hid.
Qed.

(** X1 at the sequence [1, 2, 6]. *)
Lemma remove_dc_bias_idempotent_example :
  length (remove_dc_bias [1; 2; 6]%R) = length [1; 2; 6]%R
  ∧ np_mean (remove_dc_bias [1; 2; 6]%R) = 0%R
  ∧ remove_dc_bias (remove_dc_bias [1; 2; 6]%R) = remove_dc_bias [1; 2; 6]%R
  ∧ calc_rms (remove_dc_bias [1; 2; 6]%R) = calc_rms [1; 2; 6]%R.
Proof. apply remove_dc_bias_idempotent. discriminate. Defined.

(** X2: adding a constant to every sample changes neither the peak nor the
    peak-to-peak value, at any percentile (exact arithmetic). *)
Theorem peak_shift_invariant (s : list R) (k p : R) :
  calc_peak (map (λ x, x + k)%R s) p = calc_peak s p
  ∧ calc_peak_to_peak (map (λ x, x + k)%R s) p = calc_peak_to_peak s p.
Proof.
  unfold calc_peak, calc_peak_to_peak. by rewrite remove_dc_bias_shift.
Qed.

(** ** Positive scaling *)

Section RealHomogeneous.
Local Open Scope R_scope.

Lemma Rleb_scale (x y c : R) : 0 < c → Rleb (x * c) (y * c) = Rleb x y.
Proof.
  intros Hc. unfold Rleb.
  destruct (Rle_dec (x * c) (y * c)), (Rle_dec x y); try reflexivity; nra.
Qed.

Lemma insert_sorted_scale (c x : R) (l : list R) :
  0 < c →
  insert_sorted (x * c) (map (λ y, y * c) l)
  = map (λ y, y * c) (insert_sorted x l).
Proof.
  intros Hc. induction l as [|y l IH]; [reflexivity|].
  cbn [map insert_sorted]. cbn [fleb real_arith].
  rewrite Rleb_scale by done. destruct (Rleb x y); [reflexivity|].
  cbn [map]. by rewrite IH.
Qed.

Lemma np_sort_scale (c : R) (l : list R) :
  0 < c → np_sort (map (λ y, y * c) l) = map (λ y, y * c) (np_sort l).
Proof.
  intros Hc. induction l as [|x l IH]; [reflexivity|].
  cbn [map np_sort foldr]. fold (np_sort (map (λ y, y * c) l)).
  fold (np_sort l). by rewrite IH, insert_sorted_scale.
Qed.

Lemma getitem_seq_map {A B} (f : A → B) (l : list A) (i : Z) :
  getitem_seq (map f l) i = f <$> getitem_seq l i.
Proof.
  unfold getitem_seq. rewrite length_map.
  destruct (_ <? 0)%Z; [reflexivity|].
  change (map f l) with (f <$> l). rewrite list_lookup_fmap.
  by destruct (l !! _).
Qed.

Lemma lerp_bind_scale (c gamma : R) (m1 m2 m3 : outcome R) :
  ((λ v, v * c) <$> m1) ≫= (λ _,
     ((λ v, v * c) <$> m2) ≫= (λ previous,
       ((λ v, v * c) <$> m3) ≫= (λ next,
         mret (lerp previous next gamma))))
  = (λ v, v * c) <$>
      (m1 ≫= (λ _, m2 ≫= (λ previous, m3 ≫= (λ next,
         mret (lerp previous next gamma))))).
Proof.
  destruct m1 as [x|e]; [|reflexivity].
  destruct m2 as [y|e]; [|reflexivity].
  destruct m3 as [z|e]; [|reflexivity].
  cbn [fmap outcome_fmap mbind outcome_bind mret outcome_ret].
  f_equal. rewrite !lerp_R. ring.
Qed.

Lemma np_percentile_scale (c q : R) (a : list R) :
  0 < c →
  np_percentile (map (λ y, y * c) a) q
  = (λ v, v * c) <$> np_percentile a q.
Proof.
  intros Hc. unfold np_percentile. rewrite length_map.
  destruct (negb _); [reflexivity|].
  rewrite np_sort_scale, !getitem_seq_map by done.
  apply lerp_bind_scale.
Qed.

End RealHomogeneous.

(** X3: multiplying every sample by a constant [c > 0] multiplies the RMS,
    the peak and the peak-to-peak value by [c] (exact arithmetic). *)
Theorem metrics_scale (s : list R) (c p : R) :
  (0 < c)%R →
  calc_rms (map (λ x, x * c)%R s) = (calc_rms s * c)%R
  ∧ calc_peak (map (λ x, x * c)%R s) p = (λ v, v * c)%R <$> calc_peak s p
  ∧ calc_peak_to_peak (map (λ x, x * c)%R s) p
    = (λ v, v * c)%R <$> calc_peak_to_peak s p.
Proof.
  intros Hc. split.
  { rewrite calc_rms_scale, Rabs_pos_eq by lra. reflexivity. }
  split.
  - unfold calc_peak. rewrite remove_dc_bias_scale, <- np_percentile_scale by done.
    f_equal. rewrite !map_map. apply map_ext. intros x. simpl.
    rewrite Rabs_mult, (Rabs_pos_eq c) by lra. reflexivity.
  - unfold calc_peak_to_peak. rewrite remove_dc_bias_scale.
    rewrite !np_percentile_scale by done.
    destruct (np_percentile (remove_dc_bias s) p) as [hi|e]; [|reflexivity].
    cbn [fmap outcome_fmap mbind outcome_bind].
    destruct (np_percentile (remove_dc_bias s) _) as [lo|e]; [|reflexivity].
    cbn [fmap outcome_fmap mbind outcome_bind mret outcome_ret].
    f_equal. simpl. ring.
Qed.

(** X3 at a gain of 1000 (volts to millivolts). *)
Lemma metrics_scale_millivolts :
  calc_rms (map (λ x, x * 1000)%R [1; 2; 6]%R) = (calc_rms [1; 2; 6] * 1000)%R
  ∧ calc_peak (map (λ x, x * 1000)%R [1; 2; 6]%R) default_percentile
    = (λ v, v * 1000)%R <$> calc_peak [1; 2; 6]%R default_percentile
  ∧ calc_peak_to_peak (map (λ x, x * 1000)%R [1; 2; 6]%R) default_percentile
    = (λ v, v * 1000)%R <$> calc_peak_to_peak [1; 2; 6]%R default_percentile.
Proof. apply metrics_scale. lra. Defined.

(** ** Order statistics *)

Section RealOrder.
Local Open Scope R_scope.

Lemma insert_sorted_StronglySorted (x : R) (l : list R) :
  StronglySorted Rle l → StronglySorted Rle (insert_sorted x l).
Proof.
  induction 1 as [|y l Hl IH Hy]; cbn [insert_sorted].
  - repeat constructor.
  - cbn [fleb real_arith]. unfold Rleb. destruct (Rle_dec x y) as [Hxy|Hxy].
    + constructor; [by constructor|].
      constructor; [done|]. eapply Forall_impl; [exact Hy|].
      intros z Hz. simpl in *. lra.
    + constructor; [done|]. apply Forall_forall. intros z Hz.
      apply insert_sorted_elem in Hz as [->|Hz]; [lra|].
      rewrite Forall_forall in Hy. by apply Hy.
Qed.

Lemma np_sort_StronglySorted (l : list R) : StronglySorted Rle (np_sort l).
Proof.
  induction l as [|x l IH]; [constructor|].
  cbn [np_sort foldr]. by apply insert_sorted_StronglySorted.
Qed.

Lemma StronglySorted_lookup_le (l : list R) (i j : nat) (x y : R) :
  StronglySorted Rle l → (i ≤ j)%nat →
  l !! i = Some x → l !! j = Some y → x <= y.
Proof.
  intros Hl. revert i j. induction Hl as [|z l Hl IH Hz]; intros i j Hij Hi Hj.
  - by rewrite lookup_nil in Hi.
  - destruct i as [|i], j as [|j]; simpl in *.
    + injection Hi as <-. injection Hj as <-. lra.
    + injection Hi as <-. rewrite Forall_forall in Hz.
      apply Hz. by eapply list_elem_of_lookup_2.
    + lia.
    + eapply IH; [|done..]. lia.
Qed.

Lemma getitem_seq_nonneg {A} (l : list A) (i : Z) (x : A) :
  (0 ≤ i)%Z → l !! Z.to_nat i = Some x → getitem_seq l i = Ok x.
Proof.
  intros Hi Hx. unfold getitem_seq.
  destruct (Z.ltb_spec i 0); [lia|].
  destruct (Z.ltb_spec i 0); [lia|]. by rewrite Hx.
Qed.

Lemma getitem_seq_minus_one {A} (l : list A) (x : A) :
  l !! (length l - 1)%nat = Some x → getitem_seq l (-1) = Ok x.
Proof.
  intros Hx. unfold getitem_seq.
  assert (0 < length l)%nat.
  { apply lookup_lt_Some in Hx. lia. }
  change (-1 <? 0)%Z with true. cbv iota.
  destruct (Z.ltb_spec (-1 + Z.of_nat (length l)) 0); [lia|].
  replace (Z.to_nat (-1 + Z.of_nat (length l))) with (length l - 1)%nat by lia.
  by rewrite Hx.
Qed.

(** The percentile as a point on the polygon through the sorted samples:
    with [(n - 1) * q / 100 = i + gamma], it lies between the order
    statistics [i] and [i + 1]. *)
Lemma np_percentile_interp (a : list R) (q : R) :
  a ≠ [] → 0 <= q <= 100 →
  ∃ (i : nat) (x0 x1 gamma : R),
    np_sort a !! i = Some x0
    ∧ np_sort a !! (S i `min` (length a - 1))%nat = Some x1
    ∧ 0 <= gamma < 1
    ∧ INR (length a - 1) * (q / 100) = INR i + gamma
    ∧ np_percentile a q = Ok (x0 + (x1 - x0) * gamma).
Proof.
  intros Ha Hq.
  assert (Hn : (0 < length a)%nat) by (destruct a; [done|simpl; lia]).
  assert (Hcast : IZR (Z.of_nat (length a) - 1) = INR (length a - 1)).
  { rewrite INR_IZR_INZ. f_equal. lia. }
  assert (Hn1 : 0 <= INR (length a - 1)) by apply pos_INR.
  destruct (lookup_lt_is_Some_2 (np_sort a) (length a - 1)) as [xl Hxl];
    [rewrite np_sort_length; lia|].
  assert (Hlast : getitem_seq (np_sort a) (-1) = Ok xl).
  { apply getitem_seq_minus_one. by rewrite np_sort_length. }
  unfold np_percentile.
  cbn [of_Z fdiv fmul fsub fleb fltb ffloor real_arith].
  rewrite (Rleb_true 0 (q / 100)) by lra.
  rewrite (Rleb_true (q / 100) 1) by lra.
  cbn [andb negb]. rewrite Hcast, Hlast.
  set (h := INR (length a - 1) * (q / 100)).
  assert (Hh : 0 <= h <= INR (length a - 1)) by (unfold h; split; nra).
  rewrite (Rltb_false h 0) by lra. cbn [mbind outcome_bind].
  destruct (Rle_dec (INR (length a - 1)) h) as [Habove|Hbelow].
  - rewrite (Rleb_true _ _ Habove), Hlast.
    cbn [mbind outcome_bind mret outcome_ret].
    exists (length a - 1)%nat, xl, xl, 0.
    split; [done|]. split; [by rewrite Nat.min_r by lia|].
    split; [lra|]. split; [lra|]. f_equal. rewrite lerp_R. ring.
  - rewrite Rleb_false by lra.
    pose proof (Zfloor_bound h) as Hfl.
    assert (Hlo : (0 ≤ Zfloor h)%Z) by (apply Zfloor_lub; simpl; lra).
    assert (Hi : IZR (Zfloor h) = INR (Z.to_nat (Zfloor h))).
    { rewrite INR_IZR_INZ. f_equal. lia. }
    assert (Hhi : (Z.to_nat (Zfloor h) < length a - 1)%nat).
    { apply INR_lt. lra. }
    destruct (lookup_lt_is_Some_2 (np_sort a) (Z.to_nat (Zfloor h)))
      as [x0 Hx0]; [rewrite np_sort_length; lia|].
    destruct (lookup_lt_is_Some_2 (np_sort a) (S (Z.to_nat (Zfloor h))))
      as [x1 Hx1]; [rewrite np_sort_length; lia|].
    rewrite (getitem_seq_nonneg _ _ x0 Hlo Hx0).
    rewrite (getitem_seq_nonneg _ (Zfloor h + 1) x1);
      [|lia|by replace (Z.to_nat (Zfloor h + 1))
               with (S (Z.to_nat (Zfloor h))) by lia].
    cbn [mbind outcome_bind mret outcome_ret].
    exists (Z.to_nat (Zfloor h)), x0, x1, (h - IZR (Zfloor h)).
    split; [done|]. split; [by rewrite Nat.min_l by lia|].
    split; [lra|]. split; [lra|]. f_equal. apply lerp_R.
Qed.

(** The percentile does not decrease with [q]. *)
Lemma np_percentile_mono (a : list R) (q1 q2 : R) :
  a ≠ [] → 0 <= q1 → q1 <= q2 → q2 <= 100 →
  ∃ v1 v2, np_percentile a q1 = Ok v1 ∧ np_percentile a q2 = Ok v2
           ∧ v1 <= v2.
Proof.
  intros Ha H1 H12 H2.
  destruct (np_percentile_interp a q1 Ha ltac:(lra))
    as (i & x0 & x1 & g & Hx0 & Hx1 & Hg & Hh & ->).
  destruct (np_percentile_interp a q2 Ha ltac:(lra))
    as (j & y0 & y1 & g' & Hy0 & Hy1 & Hg' & Hh' & ->).
  do 2 eexists. split; [reflexivity|]. split; [reflexivity|].
  pose proof (np_sort_StronglySorted a) as Hs.
  assert (Hn1 : 0 <= INR (length a - 1)) by apply pos_INR.
  assert (Hij : (i ≤ j)%nat).
  { apply INR_le. apply Rnot_lt_le. intros Hlt.
    assert (j + 1 ≤ i)%nat as Hle by (apply INR_lt in Hlt; lia).
    apply le_INR in Hle. rewrite plus_INR in Hle. simpl in Hle. nra. }
  assert (Hilt : (i < length a)%nat).
  { apply lookup_lt_Some in Hx0. by rewrite np_sort_length in Hx0. }
  assert (Hjlt : (j < length a)%nat).
  { apply lookup_lt_Some in Hy0. by rewrite np_sort_length in Hy0. }
  assert (Hx01 : x0 <= x1)
    by (eapply (StronglySorted_lookup_le _ i); [done| |done..]; lia).
  assert (Hy01 : y0 <= y1)
    by (eapply (StronglySorted_lookup_le _ j); [done| |done..]; lia).
  destruct (decide (i = j)) as [->|Hne].
  - rewrite Hx0 in Hy0. injection Hy0 as <-.
    rewrite Hx1 in Hy1. injection Hy1 as <-.
    assert (g <= g') by nra. nra.
  - assert (Hmid : x1 <= y0).
    { eapply (StronglySorted_lookup_le _ (S i `min` (length a - 1)) j);
        [done| |done..]. lia. }
    nra.
Qed.

(** At [q = 100] the percentile is the largest sample, at [q = 0] the
    smallest. *)
Lemma np_percentile_extremes (a : list R) (q0 : R) :
  a ≠ [] → q0 = 0 →
  ∃ lo hi, lo ∈ a ∧ hi ∈ a ∧ (∀ x, x ∈ a → lo <= x <= hi)
           ∧ np_percentile a q0 = Ok lo ∧ np_percentile a 100 = Ok hi.
Proof.
  intros Ha ->.
  destruct (np_percentile_interp a 0 Ha ltac:(lra))
    as (i & x0 & x1 & g & Hx0 & Hx1 & Hg & Hh & ->).
  destruct (np_percentile_interp a 100 Ha ltac:(lra))
    as (j & y0 & y1 & g' & Hy0 & Hy1 & Hg' & Hh' & ->).
  pose proof (np_sort_StronglySorted a) as Hs.
  pose proof (pos_INR i) as Hipos.
  assert (Hi : i = 0%nat).
  { apply INR_eq. simpl. nra. }
  assert (Hg0 : g = 0) by (subst i; simpl in Hh; nra).
  assert (Hjlt : (j < length a)%nat).
  { apply lookup_lt_Some in Hy0. by rewrite np_sort_length in Hy0. }
  assert (Hj : j = (length a - 1)%nat).
  { destruct (decide (j = length a - 1)%nat) as [->|Hne]; [done|].
    assert (j + 1 ≤ length a - 1)%nat as Hle by lia.
    apply le_INR in Hle. rewrite plus_INR in Hle. simpl in Hle. lra. }
  assert (Hg1 : g' = 0) by (subst j; lra).
  subst i j g g'. exists x0, y0.
  split; [eapply np_sort_elem, list_elem_of_lookup_2; exact Hx0|].
  split; [eapply np_sort_elem, list_elem_of_lookup_2; exact Hy0|].
  split.
  - intros x Hx. apply np_sort_elem in Hx.
    apply list_elem_of_lookup_1 in Hx as [k Hk].
    assert (k < length a)%nat.
    { apply lookup_lt_Some in Hk. by rewrite np_sort_length in Hk. }
    split.
    + eapply (StronglySorted_lookup_le _ 0 k); [done| |done..]. lia.
    + eapply (StronglySorted_lookup_le _ k (length a - 1)); [done| |done..].
      lia.
  - split; f_equal; ring.
Qed.

End RealOrder.

(** ** The signed span *)

Section SignedSpan.
Local Open Scope R_scope.

Lemma insert_sorted_Permutation (x : R) (l : list R) :
  insert_sorted x l ≡ₚ x :: l.
Proof.
  induction l as [|y l IH]; cbn [insert_sorted]; [done|].
  destruct (fleb x y); [done|]. rewrite IH. apply Permutation_swap.
Qed.

Lemma np_sort_Permutation (l : list R) : np_sort l ≡ₚ l.
Proof.
  induction l as [|x l IH]; [done|].
  cbn [np_sort foldr]. rewrite insert_sorted_Permutation.
  by apply Permutation_skip.
Qed.

Lemma np_sum_fold_right (l : list R) : np_sum l = fold_right Rplus 0 l.
Proof.
  induction l as [|x l IH]; [apply np_sum_nil|].
  rewrite np_sum_cons, IH. reflexivity.
Qed.

Lemma np_percentile_interpolates (a : list R) (q : R) :
  a ≠ [] → 0 <= q <= 100 →
  ∃ v, np_percentile a q = Ok v ∧ interpolates (np_sort a) q v.
Proof.
  intros Ha Hq.
  destruct (np_percentile_interp a q Ha Hq)
    as (i & x0 & x1 & g & H0 & H1 & Hg & Hpos & Hv).
  eexists. split; [exact Hv|].
  exists i, x0, x1, g. rewrite np_sort_length.
  split; [done|]. split; [done|]. split; [done|]. split; [done|].
  reflexivity.
Qed.

Lemma remove_dc_bias_R (s : list R) :
  remove_dc_bias s
  = map (λ x, x - fold_right Rplus 0 s / INR (length s)) s.
Proof.
  unfold remove_dc_bias. by rewrite np_mean_R, np_sum_fold_right.
Qed.

End SignedSpan.

(** C2: [calc_peak_to_peak] removes the mean from every sample and returns
    [percentile(ac, p) - percentile(ac, 100 - p)] of the signed values, in
    every arithmetic.  In exact arithmetic, for a non-empty sequence and
    [p] in [0, 100], the two percentiles are the interpolated order
    statistics of the sorted deviations from the mean, while [calc_peak]
    takes its percentile of the sorted absolute deviations.  The span is not
    twice the peak: on the asymmetric sequence [0, 0, 0, 4] at the default
    percentile the low percentile is the negative sample [-1], the span is
    [3.94] and twice [calc_peak] is [5.94] (binary64). *)
Theorem calc_peak_to_peak_signed_span :
  (∀ (F : Type) (A : Arith F) (s : list F) (p : F),
      let mean := (fold_left fadd s (of_Z 0) / of_Z (Z.of_nat (length s)))%num in
      let ac := map (λ x, x - mean)%num s in
      calc_peak_to_peak s p
      = (high ← np_percentile ac p;
         low ← np_percentile ac (of_Z 100 - p)%num;
         mret (high - low)%num))
  ∧ (∀ (s : list R) (p : R),
        s ≠ [] → (0 <= p <= 100)%R →
        let mean := (fold_right Rplus 0 s / INR (length s))%R in
        (∃ sorted high low,
            sorted ≡ₚ map (λ x, x - mean)%R s
            ∧ StronglySorted Rle sorted
            ∧ interpolates sorted p high
            ∧ interpolates sorted (100 - p) low
            ∧ calc_peak_to_peak s p = Ok (high - low)%R)
        ∧ (∃ sorted peak,
              sorted ≡ₚ map (λ x, Rabs (x - mean)) s
              ∧ StronglySorted Rle sorted
              ∧ interpolates sorted p peak
              ∧ calc_peak s p = Ok peak))
  ∧ (∃ (s : list float) (p : float),
        s ≠ []
        ∧ np_percentile (remove_dc_bias s) (of_Z 100 - p)%num = Ok (-1)%float
        ∧ ∃ pp pk, calc_peak_to_peak s p = Ok pp
                   ∧ calc_peak s p = Ok pk
                   ∧ PrimFloat.ltb pp (2 * pk)%float = true
                   ∧ pp ≠ (2 * pk)%float).
Proof.
  split; [reflexivity|]. split.
  - intros s p Hs Hp mean.
    assert (Hac : remove_dc_bias s ≠ []).
    { unfold remove_dc_bias. destruct s; [done|discriminate]. }
    assert (Habs : map fabs (remove_dc_bias s) ≠ []).
    { destruct (remove_dc_bias s); [done|discriminate]. }
    split.
    + destruct (np_percentile_interpolates _ p Hac Hp) as (hi & Hhi & Hih).
      destruct (np_percentile_interpolates _ (100 - p) Hac ltac:(lra))
        as (lo & Hlo & Hil).
      exists (np_sort (remove_dc_bias s)), hi, lo.
      split; [rewrite np_sort_Permutation; by rewrite remove_dc_bias_R|].
      split; [apply np_sort_StronglySorted|]. split; [done|]. split; [done|].
      unfold calc_peak_to_peak. cbn [of_Z fsub real_arith].
      by rewrite Hhi, Hlo.
    + destruct (np_percentile_interpolates _ p Habs Hp) as (pk & Hpk & Hik).
      exists (np_sort (map fabs (remove_dc_bias s))), pk.
      split.
      { rewrite np_sort_Permutation, remove_dc_bias_R, map_map. done. }
      split; [apply np_sort_StronglySorted|]. split; [done|].
      exact Hpk.
  - exists [0; 0; 0; 4]%float, 99.5%float. split; [done|].
    split; [vm_compute; reflexivity|].
    exists 3.9399999999999995%float, 2.9699999999999998%float.
    split; [vm_compute; reflexivity|].
    split; [vm_compute; reflexivity|].
    split; [vm_compute; reflexivity|].
    vm_compute. discriminate.
Qed.

(** X4: on a non-empty sequence and for a percentile in [0, 100],
    [calc_peak_to_peak] returns a value; the value is not negative when the
    percentile is at least 50 and not positive when it is at most 50 (exact
    arithmetic). *)
Theorem peak_to_peak_sign (s : list R) (p : R) :
  s ≠ [] → (0 <= p <= 100)%R →
  ∃ v, calc_peak_to_peak s p = Ok v
       ∧ (50 <= p → 0 <= v)%R ∧ (p <= 50 → v <= 0)%R.
Proof.
  intros Hs Hp. unfold calc_peak_to_peak.
  assert (Hac : remove_dc_bias s ≠ []).
  { unfold remove_dc_bias. destruct s; [done|discriminate]. }
  cbn [of_Z fsub real_arith].
  destruct (Rle_dec 50 p) as [Hge|Hlt].
  - destruct (np_percentile_mono (remove_dc_bias s) (100 - p) p Hac)
      as (lo & hi & Hlo & Hhi & Hle); [lra..|].
    rewrite Hhi, Hlo. eexists. split; [reflexivity|].
    split; intros Hp50; simpl; [lra|].
    replace (100 - p)%R with p in Hlo by lra.
    rewrite Hhi in Hlo. injection Hlo as <-. lra.
  - destruct (np_percentile_mono (remove_dc_bias s) p (100 - p) Hac)
      as (hi & lo & Hhi & Hlo & Hle); [lra..|].
    rewrite Hhi, Hlo. eexists. split; [reflexivity|].
    split; intros; simpl; lra.
Qed.

(** X4 at the default percentile. *)
Lemma peak_to_peak_sign_default :
  ∃ v, calc_peak_to_peak [1; 2; 6]%R default_percentile = Ok v
       ∧ (50 <= default_percentile → 0 <= v)%R
       ∧ (default_percentile <= 50 → v <= 0)%R.
Proof.
  apply peak_to_peak_sign; [discriminate|].
  unfold default_percentile, dec. simpl. lra.
Defined.

Lemma full_percentile_values (s : list R) :
  s ≠ [] →
  (∃ lo hi, lo ∈ s ∧ hi ∈ s ∧ (∀ x, x ∈ s → lo <= x <= hi)%R
            ∧ calc_peak_to_peak s 100%R = Ok (hi - lo)%R)
  ∧ (∃ m, m ∈ s
          ∧ (∀ x, x ∈ s → Rabs (x - np_mean s) <= Rabs (m - np_mean s))%R
          ∧ calc_peak s 100%R = Ok (Rabs (m - np_mean s))).
Proof.
  intros Hs.
  assert (Hac : remove_dc_bias s ≠ []).
  { unfold remove_dc_bias. destruct s; [done|discriminate]. }
  split.
  - destruct (np_percentile_extremes (remove_dc_bias s) (100 - 100)%R Hac)
      as (lo & hi & Hlo & Hhi & Hall & Hpl & Hph); [lra|].
    unfold remove_dc_bias in Hlo, Hhi.
    change (map ?f s) with (f <$> s) in Hlo, Hhi.
    apply list_elem_of_fmap in Hlo as (xlo & -> & Hxlo).
    apply list_elem_of_fmap in Hhi as (xhi & -> & Hxhi).
    exists xlo, xhi. split; [done|]. split; [done|]. split.
    + intros x Hx.
      assert (Hin : (x - np_mean s)%R ∈ remove_dc_bias s).
      { unfold remove_dc_bias. change (map ?f s) with (f <$> s).
        apply list_elem_of_fmap. exists x. split; [reflexivity|done]. }
      apply Hall in Hin. simpl in Hin. lra.
    + unfold calc_peak_to_peak. cbn [of_Z fsub real_arith].
      rewrite Hph, Hpl. cbn [mbind outcome_bind mret outcome_ret].
      f_equal. simpl. lra.
  - assert (Habs : map fabs (remove_dc_bias s) ≠ []).
    { destruct (remove_dc_bias s); [done|discriminate]. }
    destruct (np_percentile_extremes (map fabs (remove_dc_bias s)) 0%R Habs)
      as (lo & hi & _ & Hhi & Hall & _ & Hph); [done|].
    unfold remove_dc_bias in Hhi. rewrite map_map in Hhi.
    change (map ?f s) with (f <$> s) in Hhi.
    apply list_elem_of_fmap in Hhi as (m & -> & Hm).
    exists m. split; [done|]. split; [|exact Hph].
    intros x Hx.
    assert (Hin : Rabs (x - np_mean s) ∈ map fabs (remove_dc_bias s)).
    { unfold remove_dc_bias. rewrite map_map.
      change (map ?f s) with (f <$> s).
      apply list_elem_of_fmap. exists x. split; [reflexivity|done]. }
    destruct (Hall _ Hin) as [_ Hle]. exact Hle.
Qed.

Lemma np_sum_between (lo hi : R) (l : list R) :
  (∀ x, x ∈ l → lo <= x <= hi)%R →
  (INR (length l) * lo <= np_sum l <= INR (length l) * hi)%R.
Proof.
  induction l as [|x l IH]; intros Hall.
  - rewrite np_sum_nil. simpl. lra.
  - rewrite np_sum_cons. cbn [length]. rewrite S_INR.
    pose proof (Hall x ltac:(apply list_elem_of_here)).
    assert (∀ y, y ∈ l → lo <= y <= hi)%R as Hl
      by (intros y Hy; apply Hall; by apply list_elem_of_further).
    specialize (IH Hl). simpl. lra.
Qed.

Lemma np_mean_between (lo hi : R) (l : list R) :
  l ≠ [] → (∀ x, x ∈ l → lo <= x <= hi)%R →
  (lo <= np_mean l <= hi)%R.
Proof.
  intros Hl Hall. rewrite np_mean_R.
  pose proof (INR_length_pos l Hl) as Hn.
  pose proof (np_sum_between lo hi l Hall) as [H1 H2].
  split.
  - apply Rmult_le_reg_r with (INR (length l)); [done|].
    replace (np_sum l / INR (length l) * INR (length l))%R with (np_sum l)
      by (field; lra).
    lra.
  - apply Rmult_le_reg_r with (INR (length l)); [done|].
    replace (np_sum l / INR (length l) * INR (length l))%R with (np_sum l)
      by (field; lra).
    lra.
Qed.

Lemma metrics_chain (s : list R) :
  s ≠ [] →
  ∃ pk pp, calc_peak s 100%R = Ok pk
           ∧ calc_peak_to_peak s 100%R = Ok pp
           ∧ (calc_rms s <= pk)%R ∧ (pk <= pp)%R ∧ (pp <= 2 * pk)%R.
Proof.
  intros Hs.
  destruct (full_percentile_values s Hs)
    as [(lo & hi & Hlo & Hhi & Hall & Hpp) (m & Hm & Hmax & Hpk)].
  exists (Rabs (m - np_mean s)), (hi - lo)%R.
  split; [done|]. split; [done|].
  pose proof (np_mean_between lo hi s Hs Hall) as Hmean.
  pose proof (Rabs_pos (m - np_mean s)) as Hpos.
  split; [|split].
  - rewrite calc_rms_raw. unfold raw_rms. cbn [fsqrt real_arith].
    rewrite <- (sqrt_Rsqr (Rabs (m - np_mean s)) Hpos).
    apply sqrt_le_1_alt.
    assert (Hac : map (λ x : R, fmul x x) (remove_dc_bias s) ≠ []).
    { unfold remove_dc_bias. destruct s; [done|discriminate]. }
    apply (np_mean_between 0 (Rsqr (Rabs (m - np_mean s))) _ Hac).
    intros y Hy. unfold remove_dc_bias in Hy. rewrite map_map in Hy.
    change (map ?f s) with (f <$> s) in Hy.
    apply list_elem_of_fmap in Hy as (x & -> & Hx).
    specialize (Hmax x Hx). cbn [fmul fsub real_arith].
    split; [apply Rle_0_sqr|].
    pose proof (Rle_abs (x - np_mean s)) as Hx1.
    pose proof (Rle_abs (- (x - np_mean s))) as Hx2.
    rewrite Rabs_Ropp in Hx2. unfold Rsqr. nra.
  - pose proof (Hall m Hm). apply Rabs_le. lra.
  - pose proof (Hmax hi Hhi) as H1. pose proof (Hmax lo Hlo) as H2.
    pose proof (Rle_abs (hi - np_mean s)).
    pose proof (Rle_abs (- (lo - np_mean s))).
    rewrite Rabs_Ropp in *. lra.
Qed.

(** X5: at percentile 100 nothing is discarded: [calc_peak_to_peak] is the
    largest sample minus the smallest, and [calc_peak] is the largest
    absolute deviation from the mean (exact arithmetic). *)
Theorem full_percentile_is_extreme (s : list R) :
  s ≠ [] →
  (∃ lo hi, lo ∈ s ∧ hi ∈ s ∧ (∀ x, x ∈ s → lo <= x <= hi)%R
            ∧ calc_peak_to_peak s 100%R = Ok (hi - lo)%R)
  ∧ (∃ m, m ∈ s
          ∧ (∀ x, x ∈ s → Rabs (x - np_mean s) <= Rabs (m - np_mean s))%R
          ∧ calc_peak s 100%R = Ok (Rabs (m - np_mean s))).
Proof. apply full_percentile_values. Qed.

(** X5 at the sequence [1, 2, 6]. *)
Lemma full_percentile_is_extreme_example :
  (∃ lo hi, lo ∈ [1; 2; 6]%R ∧ hi ∈ [1; 2; 6]%R
            ∧ (∀ x, x ∈ [1; 2; 6]%R → lo <= x <= hi)%R
            ∧ calc_peak_to_peak [1; 2; 6]%R 100%R = Ok (hi - lo)%R)
  ∧ (∃ m, m ∈ [1; 2; 6]%R
          ∧ (∀ x, x ∈ [1; 2; 6]%R →
               Rabs (x - np_mean [1; 2; 6]) <= Rabs (m - np_mean [1; 2; 6]))%R
          ∧ calc_peak [1; 2; 6]%R 100%R
            = Ok (Rabs (m - np_mean [1; 2; 6]%R))).
Proof. apply full_percentile_is_extreme. discriminate. Defined.

(** X16: at percentile 100 the three metrics of a non-empty sequence are
    ordered: the RMS is at most the peak, the peak at most the peak-to-peak
    span, and the span at most twice the peak (exact arithmetic). *)
Theorem rms_peak_span_ordered (s : list R) :
  s ≠ [] →
  ∃ pk pp, calc_peak s 100%R = Ok pk
           ∧ calc_peak_to_peak s 100%R = Ok pp
           ∧ (calc_rms s <= pk)%R ∧ (pk <= pp)%R ∧ (pp <= 2 * pk)%R.
Proof. apply metrics_chain. Qed.

(** X16 at the sequence [1, 2, 6]. *)
Lemma rms_peak_span_ordered_example :
  ∃ pk pp, calc_peak [1; 2; 6]%R 100%R = Ok pk
           ∧ calc_peak_to_peak [1; 2; 6]%R 100%R = Ok pp
           ∧ (calc_rms [1; 2; 6]%R <= pk)%R ∧ (pk <= pp)%R
           ∧ (pp <= 2 * pk)%R.
Proof. apply rms_peak_span_ordered. discriminate. Defined.

(** * Further properties of the synthesizer *)

Section SynthesizerShape.
Context {F : Type} `{Trig F}.

Lemma np_linspace_length_any (start stop : F) (n : Z) (t : list F) :
  np_linspace start stop n = Ok t → length t = Z.to_nat n.
Proof.
  unfold np_linspace. destruct (Z.ltb_spec n 0); [discriminate|].
  intros [= <-]. rewrite length_map.
  repeat match goal with
         | |- context [if ?b then _ else _] => destruct b
         end;
    unfold np_arange; by rewrite !length_map, length_seq.
Qed.

Lemma np_linspace_nonneg (start stop : F) (n : Z) :
  (0 ≤ n)%Z → ∃ t, np_linspace start stop n = Ok t.
Proof.
  intros Hn. unfold np_linspace.
  destruct (Z.ltb_spec n 0); [lia|]. by eexists.
Qed.

Lemma reference_wave_length (params : gmap string (value F))
    (f wtype : value F) (t wave : list F) :
  reference_wave params f wtype t = Ok wave → length wave = length t.
Proof.
  unfold reference_wave.
  repeat match goal with
         | |- context [if is_str ?v ?tag then _ else _] =>
             destruct (is_str v tag)
         end;
    repeat match goal with
           | |- context [getitem_dict ?p ?k] => destruct (getitem_dict p k)
           | |- context [as_num ?v] => destruct (as_num v)
           | |- _ => progress cbn [mbind outcome_bind mret outcome_ret]
           end;
    try discriminate; intros [= <-]; apply length_map.
Qed.

Lemma rescale_length (vrms : value F) (wave out : list F) :
  rescale vrms wave = Ok out → length out = length wave.
Proof.
  unfold rescale. destruct (fltb _ _).
  - destruct (as_num vrms); [|discriminate].
    cbn [mbind outcome_bind mret outcome_ret]. intros [= <-].
    apply length_map.
  - by intros [= <-].
Qed.

Lemma unscaled_reference_inv (params : gmap string (value F))
    (duration : F) (n_points : Z) (t wave : list F) (vrms : value F) :
  unscaled_reference params duration n_points = Ok (t, wave, vrms) →
  np_linspace (of_Z 0) duration n_points = Ok t
  ∧ params !! "vrms_v" = Some vrms
  ∧ ∃ f wtype, params !! "freq_hz" = Some f ∧ params !! "type" = Some wtype
               ∧ reference_wave params f wtype t = Ok wave.
Proof.
  unfold unscaled_reference, getitem_dict.
  destruct (np_linspace _ _ _) as [t'|]; [|discriminate].
  cbn [mbind outcome_bind].
  destruct (params !! "freq_hz") as [f|]; [|discriminate].
  cbn [mbind outcome_bind].
  destruct (params !! "vrms_v") as [v|]; [|discriminate].
  cbn [mbind outcome_bind].
  destruct (params !! "type") as [w|]; [|discriminate].
  cbn [mbind outcome_bind].
  destruct (reference_wave params f w t') as [wave'|] eqn:Hw; [|discriminate].
  cbn [mbind outcome_bind mret outcome_ret]. intros [= <- <- <-].
  repeat split; eauto.
Qed.

Lemma generate_reference_inv (params : gmap string (value F))
    (duration : F) (n_points : Z) (t out : list F) :
  generate_reference params duration n_points = Ok (t, out) →
  ∃ wave vrms,
    unscaled_reference params duration n_points = Ok (t, wave, vrms)
    ∧ rescale vrms wave = Ok out.
Proof.
  unfold generate_reference.
  destruct (unscaled_reference _ _ _) as [[[t' wave] vrms]|]; [|discriminate].
  cbn [mbind outcome_bind].
  destruct (rescale vrms wave) as [out'|] eqn:Hr; [|discriminate].
  cbn [mbind outcome_bind mret outcome_ret]. intros [= <- <-]. eauto.
Qed.

Lemma reference_wave_well_formed (params : gmap string (value F))
    (tag : string) (f : F) (t : list F) :
  tag ∈ families →
  (tag = "dimmer" → ∃ d, params !! "duty_pct" = Some (VNum d)) →
  (tag = "sine_mod" → ∃ m, params !! "mod_freq_hz" = Some (VNum m)) →
  ∃ wave, reference_wave params (VNum f) (VStr tag) t = Ok wave.
Proof.
  intros Htag Hd Hm. unfold families in Htag.
  repeat (apply elem_of_cons in Htag as [->|Htag]);
    [..|by apply elem_of_nil in Htag]; unfold reference_wave, is_str;
    cbn [String.eqb Ascii.eqb Bool.eqb andb]; cbv iota.
  - by eexists.
  - by eexists.
  - by eexists.
  - destruct (Hd eq_refl) as [d Hd']. unfold getitem_dict. rewrite Hd'.
    by eexists.
  - destruct (Hm eq_refl) as [m Hm']. unfold getitem_dict. rewrite Hm'.
    by eexists.
Qed.

Lemma generate_reference_shape (params : gmap string (value F))
    (duration : F) (n_points : Z) (t out : list F) :
  generate_reference params duration n_points = Ok (t, out) →
  length t = Z.to_nat n_points ∧ length out = Z.to_nat n_points.
Proof.
  intros Hgen.
  apply generate_reference_inv in Hgen as (wave & vrms & Hun & Hres).
  apply unscaled_reference_inv in Hun as (Ht & _ & f & wtype & _ & _ & Hw).
  apply np_linspace_length_any in Ht.
  apply reference_wave_length in Hw. apply rescale_length in Hres.
  split; congruence.
Qed.

Lemma generate_reference_succeeds (params : gmap string (value F))
    (duration : F) (n_points : Z) :
  well_formed params → (0 ≤ n_points)%Z →
  ∃ t out, generate_reference params duration n_points = Ok (t, out)
           ∧ length t = Z.to_nat n_points
           ∧ length out = Z.to_nat n_points.
Proof.
  intros (tag & f & v & Hty & Htag & Hf & Hv & Hd & Hm) Hn.
  destruct (np_linspace_nonneg (of_Z 0) duration n_points Hn) as [t Ht].
  destruct (reference_wave_well_formed params tag f t Htag Hd Hm)
    as [wave Hw].
  assert (Hgen : ∃ out, generate_reference params duration n_points
                        = Ok (t, out)).
  { unfold generate_reference, unscaled_reference, getitem_dict.
    rewrite Ht, Hf, Hv, Hty. cbn [mbind outcome_bind]. rewrite Hw.
    cbn [mbind outcome_bind mret outcome_ret]. unfold rescale.
    destruct (fltb _ _); by eexists. }
  destruct Hgen as [out Hgen]. exists t, out. split; [done|].
  by eapply generate_reference_shape.
Qed.

End SynthesizerShape.

(** ** Malformed descriptors and the time grid *)

Section Rejection.
Context {F : Type} `{Trig F}.

Lemma generate_reference_negative (params : gmap string (value F))
    (duration : F) (n_points : Z) :
  (n_points < 0)%Z →
  generate_reference params duration n_points
  = Raise (ValueError ("Number of samples, " +:+ pretty n_points
                       +:+ ", must be non-negative.")).
Proof.
  intros Hn. unfold generate_reference, unscaled_reference, np_linspace.
  apply Z.ltb_lt in Hn. by rewrite Hn.
Qed.

Lemma generate_reference_malformed (params : gmap string (value F))
    (duration : F) (n_points : Z) :
  malformed params → (0 ≤ n_points)%Z →
  ∃ t e,
    np_linspace (of_Z 0) duration n_points = Ok t
    ∧ length t = Z.to_nat n_points
    ∧ generate_reference params duration n_points = Raise e
    ∧ ((∃ key, e = KeyError key)
       ∨ (∃ v, params !! "type" = Some v
               ∧ e = ValueError (unknown_type_message v))).
Proof.
  intros Hbad Hn. unfold generate_reference, unscaled_reference.
  destruct (np_linspace (of_Z 0) duration n_points) as [t|e] eqn:Ht.
  2:{ unfold np_linspace in Ht. apply Z.ltb_ge in Hn. by rewrite Hn in Ht. }
  exists t. cbn [mbind outcome_bind].
  pose proof (np_linspace_length_any _ _ _ _ Ht) as Hlen.
  destruct (params !! "freq_hz") as [f|] eqn:Hf.
  2:{ exists (KeyError "freq_hz"). rewrite (getitem_dict_None _ _ Hf).
      split; [done|]. split; [done|]. split; [reflexivity|]. left. eauto. }
  destruct (params !! "vrms_v") as [vrms|] eqn:Hv.
  2:{ exists (KeyError "vrms_v").
      rewrite (getitem_dict_Some _ _ _ Hf), (getitem_dict_None _ _ Hv).
      split; [done|]. split; [done|]. split; [reflexivity|]. left. eauto. }
  destruct (params !! "type") as [wtype|] eqn:Hty.
  2:{ exists (KeyError "type").
      rewrite (getitem_dict_Some _ _ _ Hf), (getitem_dict_Some _ _ _ Hv),
        (getitem_dict_None _ _ Hty).
      split; [done|]. split; [done|]. split; [reflexivity|]. left. eauto. }
  rewrite (getitem_dict_Some _ _ _ Hf), (getitem_dict_Some _ _ _ Hv),
    (getitem_dict_Some _ _ _ Hty).
  cbn [mbind outcome_bind].
  destruct Hbad as [v Hv' Hunk | key Hkey Hnone | tag key Htag Hkey Hnone].
  - rewrite Hty in Hv'. injection Hv' as ->.
    rewrite (reference_wave_unknown _ _ _ _ Hunk).
    eexists. split; [done|]. split; [done|]. split; [reflexivity|].
    right. eauto.
  - unfold common_keys in Hkey.
    repeat (apply elem_of_cons in Hkey as [->|Hkey]; [congruence|]).
    by apply elem_of_nil in Hkey.
  - rewrite Hty in Htag. injection Htag as ->.
    rewrite (reference_wave_missing_key _ _ _ _ _ Hkey Hnone).
    eexists. split; [done|]. split; [done|]. split; [reflexivity|].
    left. eauto.
Qed.

End Rejection.

(** C6 (as stated), counterexample: the time grid is the first thing
    [generate_reference] builds, before it reads the descriptor.  For the
    unknown tag ["sawtooth"] on the default grid the array of 10000 times
    exists when the [ValueError] of the tag is raised; and with
    [n_points = -1] the call fails inside [np.linspace], with its error,
    for the unknown tag and for the empty descriptor alike, so neither was
    looked at before the array was asked for. *)
Lemma time_grid_precedes_rejection :
  (∃ t : list R,
      np_linspace (of_Z 0) default_duration default_n_points = Ok t
      ∧ length t = 10000%nat
      ∧ generate_reference (descriptor "sawtooth" 60%R (1 / 10)%R)
          default_duration default_n_points
        = Raise (ValueError "Tipo de onda desconhecido: sawtooth"))
  ∧ generate_reference (descriptor "sawtooth" 60%R (1 / 10)%R)
      default_duration (-1)
    = Raise (ValueError "Number of samples, -1, must be non-negative.")
  ∧ generate_reference (F:=R) ∅ default_duration (-1)
    = Raise (ValueError "Number of samples, -1, must be non-negative.").
Proof.
  split; [|split; reflexivity].
  assert (∃ t : list R,
             np_linspace (of_Z 0) default_duration default_n_points = Ok t)
    as [t Ht] by (eexists; reflexivity).
  exists t. split; [exact Ht|]. split.
  - rewrite (np_linspace_length_any _ _ _ _ Ht). reflexivity.
  - unfold generate_reference, unscaled_reference. rewrite Ht. reflexivity.
Qed.

(** C6 (amended): a descriptor whose family tag is none of the five, or
    which lacks one of the keys its family reads, makes
    [generate_reference] raise and return no [(times, voltages)] pair, in
    every arithmetic.  The time grid is built first: for [n_points >= 0]
    the grid of [n_points] times exists when the [KeyError] of the missing
    key or the [ValueError] of the unknown tag is raised, and for a
    negative [n_points] the error is the [ValueError] of [np.linspace]. *)
Theorem generate_reference_rejects_malformed `{Trig F}
    (params : gmap string (value F)) (duration : F) (n_points : Z) :
  malformed params →
  ((0 ≤ n_points)%Z →
     ∃ t e,
       np_linspace (of_Z 0) duration n_points = Ok t
       ∧ length t = Z.to_nat n_points
       ∧ generate_reference params duration n_points = Raise e
       ∧ ((∃ key, e = KeyError key)
          ∨ (∃ v, params !! "type" = Some v
                  ∧ e = ValueError (unknown_type_message v))))
  ∧ ((n_points < 0)%Z →
     generate_reference params duration n_points
     = Raise (ValueError ("Number of samples, " +:+ pretty n_points
                          +:+ ", must be non-negative."))).
Proof.
  intros Hbad. split.
  - by apply generate_reference_malformed.
  - apply generate_reference_negative.
Qed.

(** C6 (amended), at the tag ["sawtooth"] with every common key present. *)
Lemma generate_reference_rejects_sawtooth :
  ((0 ≤ default_n_points)%Z →
     ∃ (t : list R) e,
       np_linspace (of_Z 0) default_duration default_n_points = Ok t
       ∧ length t = Z.to_nat default_n_points
       ∧ generate_reference (descriptor "sawtooth" 60%R (1 / 10)%R)
           default_duration default_n_points = Raise e
       ∧ ((∃ key, e = KeyError key)
          ∨ (∃ v, descriptor "sawtooth" 60%R (1 / 10)%R !! "type" = Some v
                  ∧ e = ValueError (unknown_type_message v))))
  ∧ ((default_n_points < 0)%Z →
     generate_reference (descriptor "sawtooth" 60%R (1 / 10)%R)
       default_duration default_n_points
     = Raise (ValueError ("Number of samples, " +:+ pretty default_n_points
                          +:+ ", must be non-negative."))).
Proof.
  apply generate_reference_rejects_malformed.
  apply (unknown_family _ (VStr "sawtooth")).
  - reflexivity.
  - intros tag Htag. unfold families in Htag.
    repeat (apply elem_of_cons in Htag as [->|Htag]; [reflexivity|]).
    by apply elem_of_nil in Htag.
Defined.

(** X6: whatever the arithmetic, when [generate_reference] returns, the
    time array and the voltage array both have [n_points] elements. *)
Theorem generate_reference_lengths `{Trig F}
    (params : gmap string (value F)) (duration : F) (n_points : Z)
    (t out : list F) :
  generate_reference params duration n_points = Ok (t, out) →
  length t = Z.to_nat n_points ∧ length out = Z.to_nat n_points.
Proof. apply generate_reference_shape. Qed.

(** X6 at [triangle_2000hz_100mVrms] on the default grid. *)
Lemma generate_reference_lengths_triangle :
  ∃ t out,
    generate_reference (descriptor "triangle" 2000%R (1 / 10)%R)
      default_duration default_n_points = Ok (t, out)
    ∧ length t = Z.to_nat default_n_points
    ∧ length out = Z.to_nat default_n_points.
Proof.
  pose proof (unscaled_reference_triangle 2000 (1 / 10) default_duration
                default_n_points ltac:(done)) as Hun.
  rewrite default_grid_R in Hun.
  assert (Hpos : (0 < raw_rms (map (triangle_sample 2000%R)
                        (map (λ k : nat, INR k * (1 / 10000))%R
                           (seq 0 (2000 * 5)))))%R)
    by (rewrite triangle_2000_raw_rms; lra).
  pose proof (generate_reference_scaled _ _ _ _ _ _ Hun Hpos) as Hgen.
  do 2 eexists. split; [exact Hgen|].
  exact (generate_reference_lengths _ _ _ _ _ Hgen).
Defined.

(** X7: whatever the arithmetic, a well-formed descriptor never fails: for
    [n_points >= 0] the synthesizer returns two arrays of [n_points]
    elements, and for a negative [n_points] it raises the [ValueError] of
    [np.linspace]. *)
Theorem generate_reference_total `{Trig F}
    (params : gmap string (value F)) (duration : F) (n_points : Z) :
  well_formed params →
  ((0 ≤ n_points)%Z →
     ∃ t out, generate_reference params duration n_points = Ok (t, out)
              ∧ length t = Z.to_nat n_points
              ∧ length out = Z.to_nat n_points)
  ∧ ((n_points < 0)%Z →
     ∃ msg, generate_reference params duration n_points
            = Raise (ValueError msg)).
Proof.
  intros Hwf. split.
  - by apply generate_reference_succeeds.
  - intros Hn. unfold generate_reference, unscaled_reference, np_linspace.
    destruct (Z.ltb_spec n_points 0); [|lia]. by eexists.
Qed.

(** X7 at [sine_60hz_33.85mVrms] with the default [n_points]. *)
Lemma generate_reference_total_sine :
  ((0 ≤ default_n_points)%Z →
     ∃ t out, generate_reference (descriptor "sine" 60%R (3385 / 100000)%R)
                default_duration default_n_points = Ok (t, out)
              ∧ length t = Z.to_nat default_n_points
              ∧ length out = Z.to_nat default_n_points)
  ∧ ((default_n_points < 0)%Z →
     ∃ msg, generate_reference (descriptor "sine" 60%R (3385 / 100000)%R)
              default_duration default_n_points = Raise (ValueError msg)).
Proof.
  apply generate_reference_total.
  exists "sine", 60%R, (3385 / 100000)%R.
  split; [reflexivity|]. split; [apply list_elem_of_here|].
  split; [reflexivity|]. split; [reflexivity|].
  split; discriminate.
Defined.

Section RealShape.
Local Open Scope R_scope.

(** *** The time grid *)

Lemma time_grid_lookup (duration : R) (n : Z) (t : list R) (k : nat) (x : R) :
  np_linspace 0 duration n = Ok t → t !! k = Some x →
  (Z.of_nat k < n)%Z ∧ x = INR k * (duration / IZR n).
Proof.
  intros Ht Hk.
  assert (Hn : (0 ≤ n)%Z).
  { unfold np_linspace in Ht. destruct (Z.ltb_spec n 0); [discriminate|lia]. }
  rewrite np_linspace_R in Ht by done. injection Ht as <-.
  change (map ?f ?l) with (f <$> l) in Hk.
  rewrite list_lookup_fmap in Hk.
  destruct (seq 0 (Z.to_nat n) !! k) as [j|] eqn:Hj; [|discriminate].
  apply lookup_seq in Hj as [-> Hlt]. injection Hk as <-.
  split; [lia|reflexivity].
Qed.

(** *** Bounds of the unscaled samples *)

Lemma sine_sample_bound (f tk : R) : Rabs (sine_sample f tk) <= 1.
Proof.
  unfold sine_sample. cbn [fsin real_trig]. apply Rabs_le, SIN_bound.
Qed.

Lemma np_sign_values (x : R) :
  np_sign x = -1 ∨ np_sign x = 0 ∨ np_sign x = 1.
Proof.
  unfold np_sign. cbn [of_Z fltb feqb real_arith]. unfold Rltb, Reqb.
  destruct (Rlt_dec x 0); [by left|].
  destruct (Rlt_dec 0 x); [by right; right|].
  destruct (Req_dec_T x 0); [by right; left|]. lra.
Qed.

Lemma square_sample_values (f tk : R) :
  square_sample f tk = -1 ∨ square_sample f tk = 0 ∨ square_sample f tk = 1.
Proof. apply np_sign_values. Qed.

Lemma triangle_sample_bound (f tk : R) : Rabs (triangle_sample f tk) <= 1.
Proof.
  unfold triangle_sample, dec. cbn [of_Z fmul fsub fdiv fabs real_arith].
  pose proof (fmod_nonneg (f * tk) 1 ltac:(lra)).
  pose proof (fmod_lt (f * tk) 1 ltac:(lra)).
  apply Rabs_le. split.
  - pose proof (Rabs_pos (fmod (f * tk) 1 - 1 / 2)). lra.
  - assert (Rabs (fmod (f * tk) 1 - 1 / 2) <= 1 / 2) by (apply Rabs_le; lra).
    lra.
Qed.

Lemma dimmer_sample_bound (firing f tk : R) :
  Rabs (dimmer_sample firing f tk) <= 1.
Proof.
  unfold dimmer_sample. destruct (fleb _ _).
  - cbn [fsin real_trig]. apply Rabs_le, SIN_bound.
  - cbn [of_Z real_arith]. rewrite Rabs_R0. lra.
Qed.

Lemma sine_mod_sample_bound (f f_mod tk : R) :
  Rabs (sine_mod_sample f f_mod tk) <= 2.
Proof.
  unfold sine_mod_sample. cbn [of_Z fmul fadd fsin fcos real_arith real_trig].
  rewrite Rabs_mult.
  pose proof (SIN_bound (2 * PI * f * tk)) as Hs.
  pose proof (COS_bound (2 * PI * f_mod * tk)) as Hc.
  assert (Rabs (sin (2 * PI * f * tk)) <= 1) by (apply Rabs_le; lra).
  assert (Rabs (1 + cos (2 * PI * f_mod * tk)) <= 2) by (apply Rabs_le; lra).
  replace 2 with (1 * 2) at 3 by lra.
  apply Rmult_le_compat; [apply Rabs_pos..|done|done].
Qed.

Lemma reference_wave_bounds (params : gmap string (value R))
    (f wtype : value R) (t wave : list R) :
  reference_wave params f wtype t = Ok wave →
  Forall (λ w, Rabs w <= 2) wave
  ∧ (is_str wtype "sine_mod" = false → Forall (λ w, Rabs w <= 1) wave)
  ∧ (is_str wtype "square" = true →
     Forall (λ w, w = -1 ∨ w = 0 ∨ w = 1) wave).
Proof.
  unfold reference_wave.
  destruct (is_str wtype "sine") eqn:Hsine.
  { destruct (as_num f) as [fr|]; [|discriminate].
    cbn [mbind outcome_bind mret outcome_ret]. intros [= <-].
    assert (Hsq : is_str wtype "square" = false).
    { destruct wtype as [tag|]; [|done]. simpl in *.
      apply String.eqb_eq in Hsine as ->. reflexivity. }
    split; [|split]; [| |by rewrite Hsq].
    - apply Forall_map, Forall_forall. intros tk _.
      eapply Rle_trans; [apply sine_sample_bound|lra].
    - intros _. apply Forall_map, Forall_forall. intros tk _.
      apply sine_sample_bound. }
  destruct (is_str wtype "square") eqn:Hsquare.
  { destruct (as_num f) as [fr|]; [|discriminate].
    cbn [mbind outcome_bind mret outcome_ret]. intros [= <-].
    split; [|split].
    - apply Forall_map, Forall_forall. intros tk _.
      destruct (square_sample_values fr tk) as [-> | [-> | ->]];
        apply Rabs_le; lra.
    - intros _. apply Forall_map, Forall_forall. intros tk _.
      destruct (square_sample_values fr tk) as [-> | [-> | ->]];
        apply Rabs_le; lra.
    - intros _. apply Forall_map, Forall_forall. intros tk _.
      apply square_sample_values. }
  destruct (is_str wtype "triangle").
  { destruct (as_num f) as [fr|]; [|discriminate].
    cbn [mbind outcome_bind mret outcome_ret]. intros [= <-].
    split; [|split]; [| |discriminate].
    - apply Forall_map, Forall_forall. intros tk _.
      eapply Rle_trans; [apply triangle_sample_bound|lra].
    - intros _. apply Forall_map, Forall_forall. intros tk _.
      apply triangle_sample_bound. }
  destruct (is_str wtype "dimmer").
  { destruct (getitem_dict params "duty_pct") as [d|]; [|discriminate].
    cbn [mbind outcome_bind].
    destruct (as_num d) as [dr|]; [|discriminate].
    cbn [mbind outcome_bind].
    destruct (as_num f) as [fr|]; [|discriminate].
    cbn [mbind outcome_bind mret outcome_ret]. intros [= <-].
    split; [|split]; [| |discriminate].
    - apply Forall_map, Forall_forall. intros tk _.
      eapply Rle_trans; [apply dimmer_sample_bound|lra].
    - intros _. apply Forall_map, Forall_forall. intros tk _.
      apply dimmer_sample_bound. }
  destruct (is_str wtype "sine_mod").
  { destruct (getitem_dict params "mod_freq_hz") as [m|]; [|discriminate].
    cbn [mbind outcome_bind].
    destruct (as_num f) as [fr|]; [|discriminate].
    cbn [mbind outcome_bind].
    destruct (as_num m) as [mr|]; [|discriminate].
    cbn [mbind outcome_bind mret outcome_ret]. intros [= <-].
    split; [|split]; [|discriminate|discriminate].
    apply Forall_map, Forall_forall. intros tk _.
    apply sine_mod_sample_bound. }
  discriminate.
Qed.

End RealShape.

(** X8: the time grid is half open: sample [k] is at [k * duration / n],
    the first at 0 and, for a positive duration, every one before
    [duration] (exact arithmetic). *)
Theorem time_grid_half_open (params : gmap string (value R))
    (duration : R) (n_points : Z) (t out : list R) :
  generate_reference params duration n_points = Ok (t, out) →
  (0 < duration)%R →
  ∀ (k : nat) (x : R), t !! k = Some x →
    x = (INR k * (duration / IZR n_points))%R ∧ (0 <= x < duration)%R.
Proof.
  intros Hgen Hd k x Hk.
  apply generate_reference_inv in Hgen as (wave & vrms & Hun & _).
  apply unscaled_reference_inv in Hun as (Ht & _).
  destruct (time_grid_lookup duration n_points t k x Ht Hk) as [Hlt ->].
  split; [reflexivity|].
  assert (Hn : (0 < IZR n_points)%R) by (apply IZR_lt; lia).
  assert (Hkn : (INR k < IZR n_points)%R).
  { rewrite INR_IZR_INZ. by apply IZR_lt. }
  pose proof (pos_INR k) as Hk0.
  assert (Hstep : (0 < duration / IZR n_points)%R)
    by by apply Rdiv_lt_0_compat.
  split; [nra|].
  replace duration with (IZR n_points * (duration / IZR n_points))%R at 2
    by (field; lra).
  nra.
Qed.

(** X8 at [triangle_2000hz_100mVrms] on the default grid. *)
Lemma time_grid_half_open_triangle :
  ∃ t out,
    generate_reference (descriptor "triangle" 2000%R (1 / 10)%R)
      default_duration default_n_points = Ok (t, out)
    ∧ ∀ (k : nat) (x : R), t !! k = Some x →
        x = (INR k * (default_duration / IZR default_n_points))%R
        ∧ (0 <= x < default_duration)%R.
Proof.
  pose proof (unscaled_reference_triangle 2000 (1 / 10) default_duration
                default_n_points ltac:(done)) as Hun.
  rewrite default_grid_R in Hun.
  assert (Hpos : (0 < raw_rms (map (triangle_sample 2000%R)
                        (map (λ k : nat, INR k * (1 / 10000))%R
                           (seq 0 (2000 * 5)))))%R)
    by (rewrite triangle_2000_raw_rms; lra).
  pose proof (generate_reference_scaled _ _ _ _ _ _ Hun Hpos) as Hgen.
  do 2 eexists. split; [exact Hgen|].
  apply (time_grid_half_open _ _ _ _ _ Hgen).
  unfold default_duration. simpl. lra.
Defined.

Section RealDimmer.
Local Open Scope R_scope.

Lemma dimmer_sample_full (firing f tk : R) :
  firing <= 0 → dimmer_sample firing f tk = sine_sample f tk.
Proof.
  intros Hf. unfold dimmer_sample, sine_sample.
  cbn [of_Z fmul fpi fleb real_arith real_trig].
  rewrite Rleb_true; [reflexivity|].
  pose proof (fmod_nonneg (2 * PI * f * tk) PI PI_RGT_0). lra.
Qed.

End RealDimmer.

(** X9: the duty of a dimmer descriptor is not limited to 100: at every
    [duty_pct >= 100] the firing angle is not positive, nothing is blanked,
    and the synthesizer returns what it returns for the sine descriptor of
    the same frequency and target RMS (exact arithmetic). *)
Theorem dimmer_full_duty_is_sine (duty f vrms duration : R) (n_points : Z) :
  (100 <= duty)%R →
  generate_reference (dimmer_descriptor duty f vrms) duration n_points
  = generate_reference (descriptor "sine" f vrms) duration n_points.
Proof.
  intros Hduty. unfold generate_reference.
  assert (Hun : unscaled_reference (dimmer_descriptor duty f vrms) duration
                  n_points
                = unscaled_reference (descriptor "sine" f vrms) duration
                    n_points).
  { unfold unscaled_reference.
    destruct (np_linspace (of_Z 0) duration n_points) as [t|e]; [|reflexivity].
    cbn [mbind outcome_bind].
    rewrite dimmer_descriptor_freq, dimmer_descriptor_vrms,
      dimmer_descriptor_type, descriptor_freq, descriptor_vrms,
      descriptor_type.
    cbn [mbind outcome_bind]. unfold reference_wave.
    change (is_str (VStr "dimmer") "sine") with false.
    change (is_str (VStr "dimmer") "square") with false.
    change (is_str (VStr "dimmer") "triangle") with false.
    change (is_str (VStr "dimmer") "dimmer") with true.
    change (is_str (VStr "sine") "sine") with true.
    cbv iota. rewrite dimmer_descriptor_duty.
    cbn [mbind outcome_bind mret outcome_ret as_num].
    do 3 f_equal. apply map_ext. intros tk. apply dimmer_sample_full.
    cbn [of_Z fdiv fmul fsub fpi real_arith real_trig].
    pose proof PI_RGT_0. nra. }
  by rewrite Hun.
Qed.

(** X9 at a duty of 150 per cent. *)
Lemma dimmer_150pct_is_sine :
  generate_reference (dimmer_descriptor 150%R 60%R (118 / 1000)%R)
    default_duration default_n_points
  = generate_reference (descriptor "sine" 60%R (118 / 1000)%R)
      default_duration default_n_points.
Proof. apply dimmer_full_duty_is_sine. lra. Defined.

(** X10: before scaling every sample lies in [-1, 1], in [-2, 2] for the
    modulated sine, and a square wave takes only the values -1, 0 and 1
    (exact arithmetic). *)
Theorem unscaled_wave_bounds (params : gmap string (value R))
    (duration : R) (n_points : Z) (t wave : list R) (vrms wtype : value R) :
  unscaled_reference params duration n_points = Ok (t, wave, vrms) →
  params !! "type" = Some wtype →
  Forall (λ w, Rabs w <= 2)%R wave
  ∧ (is_str wtype "sine_mod" = false → Forall (λ w, Rabs w <= 1)%R wave)
  ∧ (is_str wtype "square" = true →
     Forall (λ w, w = (-1)%R ∨ w = 0%R ∨ w = 1%R) wave).
Proof.
  intros Hun Hty.
  apply unscaled_reference_inv in Hun as (_ & _ & f & w & _ & Hty' & Hw).
  rewrite Hty in Hty'. injection Hty' as <-.
  by eapply reference_wave_bounds.
Qed.

(** X10 at [triangle_2000hz_100mVrms] on the default grid. *)
Lemma unscaled_wave_bounds_triangle :
  ∃ t wave,
    unscaled_reference (descriptor "triangle" 2000%R (1 / 10)%R)
      default_duration default_n_points = Ok (t, wave, VNum (1 / 10)%R)
    ∧ Forall (λ w, Rabs w <= 2)%R wave
    ∧ (is_str (VStr (F:=R) "triangle") "sine_mod" = false →
       Forall (λ w, Rabs w <= 1)%R wave)
    ∧ (is_str (VStr (F:=R) "triangle") "square" = true →
       Forall (λ w, w = (-1)%R ∨ w = 0%R ∨ w = 1%R) wave).
Proof.
  pose proof (unscaled_reference_triangle 2000 (1 / 10) default_duration
                default_n_points ltac:(done)) as Hun.
  do 2 eexists. split; [exact Hun|].
  apply (unscaled_wave_bounds _ _ _ _ _ _ _ Hun). reflexivity.
Defined.

Section TargetRms.
Context {F : Type} `{Trig F}.

Lemma reference_wave_insert_vrms (params : gmap string (value F))
    (x f wtype : value F) (t : list F) :
  reference_wave (<["vrms_v" := x]> params) f wtype t
  = reference_wave params f wtype t.
Proof.
  unfold reference_wave, getitem_dict.
  by rewrite !lookup_insert_ne by done.
Qed.

(** The wave before scaling does not depend on the target RMS. *)
Lemma unscaled_reference_insert_vrms (params : gmap string (value F))
    (duration : F) (n_points : Z) (t wave : list F) (vrms x : value F) :
  unscaled_reference params duration n_points = Ok (t, wave, vrms) →
  unscaled_reference (<["vrms_v" := x]> params) duration n_points
  = Ok (t, wave, x).
Proof.
  intros Hun.
  apply unscaled_reference_inv in Hun as (Ht & _ & f & w & Hf & Hty & Hw).
  unfold unscaled_reference, getitem_dict. rewrite Ht.
  rewrite lookup_insert_eq, !lookup_insert_ne by done. rewrite Hf, Hty.
  cbn [mbind outcome_bind]. rewrite reference_wave_insert_vrms, Hw.
  reflexivity.
Qed.

End TargetRms.

(** X11: the target RMS only scales the output: with the wave before
    scaling fixed by the other parameters, changing the target from
    [v <> 0] to [v'] multiplies every output sample by [v' / v] (exact
    arithmetic). *)
Theorem target_rms_only_scales (params : gmap string (value R))
    (duration : R) (n_points : Z) (t wave : list R) (v : R) :
  unscaled_reference params duration n_points = Ok (t, wave, VNum v) →
  (0 < raw_rms wave)%R → v ≠ 0%R →
  ∃ out,
    generate_reference params duration n_points = Ok (t, out)
    ∧ ∀ v' : R,
        generate_reference (<["vrms_v" := VNum v']> params) duration n_points
        = Ok (t, map (λ o, o * (v' / v))%R out).
Proof.
  intros Hun Hraw Hv. eexists. split; [by apply generate_reference_scaled|].
  intros v'.
  rewrite (generate_reference_scaled _ _ _ t wave v');
    [|by eapply unscaled_reference_insert_vrms|done].
  f_equal. rewrite map_map. f_equal. apply map_ext. intros w. field. lra.
Qed.

(** X11 at [triangle_2000hz_100mVrms] on the default grid. *)
Lemma target_rms_only_scales_triangle :
  ∃ t out,
    generate_reference (descriptor "triangle" 2000%R (1 / 10)%R)
      default_duration default_n_points = Ok (t, out)
    ∧ ∀ v' : R,
        generate_reference
          (<["vrms_v" := VNum v']> (descriptor "triangle" 2000%R (1 / 10)%R))
          default_duration default_n_points
        = Ok (t, map (λ o, o * (v' / (1 / 10)))%R out).
Proof.
  pose proof (unscaled_reference_triangle 2000 (1 / 10) default_duration
                default_n_points ltac:(done)) as Hun.
  rewrite default_grid_R in Hun.
  eexists.
  apply (target_rms_only_scales _ _ _ _ _ _ Hun).
  - rewrite triangle_2000_raw_rms. lra.
  - lra.
Defined.

(** * The matcher *)

Section Strings.

Lemma str_app_cons (c : ascii) (a b : string) :
  String c a +:+ b = String c (a +:+ b).
Proof. reflexivity. Qed.

Lemma str_app_nil_l (b : string) : EmptyString +:+ b = b.
Proof. reflexivity. Qed.

Lemma str_length_app (a b : string) :
  String.length (a +:+ b) = (String.length a + String.length b)%nat.
Proof.
  induction a as [|c a IH]; [done|].
  rewrite str_app_cons. simpl. by rewrite IH.
Qed.

Lemma str_app_nil_r (a : string) : a +:+ EmptyString = a.
Proof.
  induction a as [|c a IH]; [done|]. by rewrite str_app_cons, IH.
Qed.

Lemma str_app_assoc (a b c : string) : (a +:+ b) +:+ c = a +:+ (b +:+ c).
Proof.
  induction a as [|x a IH]; [done|]. by rewrite !str_app_cons, IH.
Qed.

Lemma str_take_app (a b : string) : str_take (String.length a) (a +:+ b) = a.
Proof.
  induction a as [|c a IH]; [by destruct b|].
  rewrite str_app_cons. simpl. by rewrite IH.
Qed.

Lemma consumed_app (pre rest : string) : consumed (pre +:+ rest) rest = pre.
Proof.
  unfold consumed. rewrite str_length_app.
  replace (String.length pre + String.length rest - String.length rest)%nat
    with (String.length pre) by lia.
  apply str_take_app.
Qed.

Lemma lit_match_app (text s rest : string) :
  lit_match text s = Some rest →
  ∃ pre, s = pre +:+ rest ∧ str_lower pre = str_lower text.
Proof.
  revert s. induction text as [|a text IH]; intros s; simpl.
  - intros [= <-]. by exists EmptyString.
  - destruct s as [|c s]; [discriminate|].
    destruct (Ascii.eqb_spec (lower a) (lower c)) as [Hac|]; [|discriminate].
    intros Hm. destruct (IH _ Hm) as (pre & -> & Hpre).
    exists (String c pre). split; [done|]. simpl. by rewrite Hpre, Hac.
Qed.

Lemma lit_match_self (text rest : string) :
  lit_match text (text +:+ rest) = Some rest.
Proof.
  induction text as [|a text IH]; [done|].
  rewrite str_app_cons. simpl. by rewrite Ascii.eqb_refl.
Qed.

End Strings.

Section MatcherSound.
Context {A : Type}.

Lemma star_sound (cls : ascii → bool) (s : string) (k : string → option A)
    (x : A) :
  star cls s k = Some x →
  ∃ pre rest, s = pre +:+ rest ∧ str_all cls pre ∧ k rest = Some x.
Proof.
  induction s as [|c s IH]; simpl.
  - intros Hk. by exists EmptyString, EmptyString.
  - destruct (cls c) eqn:Hc.
    + destruct (star cls s k) as [y|] eqn:Hs.
      * intros [= ->]. destruct (IH eq_refl) as (pre & rest & -> & Hall & Hk).
        exists (String c pre), rest. by repeat split.
      * intros Hk. by exists EmptyString, (String c s).
    + intros Hk. by exists EmptyString, (String c s).
Qed.

(** Whatever the matcher finds is a match. *)
Lemma rmatch_sound (r : regex) (s : string) (caps : list string)
    (k : string → list string → option A) (x : A) :
  rmatch r s caps k = Some x →
  ∃ rest caps', matches r s rest caps caps' ∧ k rest caps' = Some x.
Proof.
  revert s caps k. induction r as [text|cls|cls|r1 IH1 r2 IH2|r1 IH1|r1 IH1 r2 IH2|];
    intros s caps k; cbn [rmatch matches].
  - destruct (lit_match text s) as [rest|] eqn:Hl; [|discriminate].
    intros Hk. by exists rest, caps.
  - destruct s as [|c s]; [discriminate|].
    destruct (cls c) eqn:Hc; [|discriminate].
    intros Hs. apply star_sound in Hs as (pre & rest & -> & Hall & Hk).
    exists rest, caps. split; [|done].
    exists (String c pre). by repeat split.
  - destruct s as [|c s]; [discriminate|].
    destruct (cls c) eqn:Hc; [|discriminate].
    intros Hk. exists s, caps. split; [|done]. by exists c.
  - destruct (rmatch r1 s caps k) as [y|] eqn:H1.
    + intros [= ->]. destruct (IH1 _ _ _ H1) as (rest & caps' & Hm & Hk).
      exists rest, caps'. auto.
    + intros H2. destruct (IH2 _ _ _ H2) as (rest & caps' & Hm & Hk).
      exists rest, caps'. auto.
  - intros H1. destruct (IH1 _ _ _ H1) as (rest & caps1 & Hm & Hk).
    exists rest, (caps1 ++ [consumed s rest]). split; [|done]. by exists caps1.
  - intros H1. destruct (IH1 _ _ _ H1) as (mid & caps1 & Hm1 & H2).
    destruct (IH2 _ _ _ H2) as (rest & caps' & Hm2 & Hk).
    exists rest, caps'. split; [|done]. by exists mid, caps1.
  - destruct (String.eqb_spec s EmptyString) as [->|Hne].
    + intros Hk. exists EmptyString, caps. auto.
    + destruct (String.eqb_spec s (String "010" EmptyString)) as [->|Hne'];
        [|discriminate].
      intros Hk. exists (String "010" EmptyString), caps. auto.
Qed.

End MatcherSound.

(** * parse_signal_name *)

Section PatternGroups.

(** The three groups of a [dimmer_...] or [sine_..._mod_...] match: two
    runs of digits and a run of digits and dots. *)
Lemma numeric_groups (lit1 lit2 name : string) (m : list string) :
  re_match
    (Seq (Lit lit1) (Seq (Group (Plus is_digit)) (Seq (Lit lit2)
      (Seq (Group (Plus is_digit)) (Seq (Lit "hz_")
        (Seq (Group (Plus is_digit_or_dot)) (Lit "mVrms"))))))) name
  = Some m →
  ∃ g1 g2 g3,
    m = [g1; g2; g3]
    ∧ g1 ≠ EmptyString ∧ str_all is_digit g1
    ∧ g2 ≠ EmptyString ∧ str_all is_digit g2
    ∧ g3 ≠ EmptyString ∧ str_all is_digit_or_dot g3.
Proof.
  intros Hre. apply rmatch_sound in Hre as (rest & caps & Hm & [= <-]).
  cbn [matches] in Hm.
  destruct Hm as (s1 & c1 & [_ ->] & s2 & c2 & (c2' & (g1 & Hg1 & Hall1 & -> & ->) & ->)
                  & s3 & c3 & [_ ->] & s4 & c4
                  & (c4' & (g2 & Hg2 & Hall2 & -> & ->) & ->)
                  & s5 & c5 & [_ ->] & s6 & c6
                  & (c6' & (g3 & Hg3 & Hall3 & -> & ->) & ->) & [_ ->]).
  rewrite !consumed_app. exists g1, g2, g3. by repeat split.
Qed.

Lemma dimmer_re_groups (name : string) (m : list string) :
  re_match dimmer_re name = Some m →
  ∃ g1 g2 g3,
    m = [g1; g2; g3]
    ∧ g1 ≠ EmptyString ∧ str_all is_digit g1
    ∧ g2 ≠ EmptyString ∧ str_all is_digit g2
    ∧ g3 ≠ EmptyString ∧ str_all is_digit_or_dot g3.
Proof. apply numeric_groups. Qed.

Lemma sine_mod_re_groups (name : string) (m : list string) :
  re_match sine_mod_re name = Some m →
  ∃ g1 g2 g3,
    m = [g1; g2; g3]
    ∧ g1 ≠ EmptyString ∧ str_all is_digit g1
    ∧ g2 ≠ EmptyString ∧ str_all is_digit g2
    ∧ g3 ≠ EmptyString ∧ str_all is_digit_or_dot g3.
Proof. apply numeric_groups. Qed.

(** The groups of a plain match: the family tag in any letter case, a run
    of digits and a run of digits and dots. *)
Lemma plain_re_groups (name : string) (m : list string) :
  re_match plain_re name = Some m →
  ∃ g1 g2 g3,
    m = [g1; g2; g3]
    ∧ str_lower g1 ∈ ["sine"; "square"; "triangle"]
    ∧ g2 ≠ EmptyString ∧ str_all is_digit g2
    ∧ g3 ≠ EmptyString ∧ str_all is_digit_or_dot g3.
Proof.
  intros Hre. apply rmatch_sound in Hre as (rest & caps & Hm & [= <-]).
  unfold plain_re in Hm. cbn [matches] in Hm.
  destruct Hm as (s1 & c1 & (c1' & Htag & ->) & s2 & c2 & [_ ->] & s3 & c3
                  & (c3' & (g2 & Hg2 & Hall2 & -> & ->) & ->)
                  & s4 & c4 & [_ ->] & s5 & c5
                  & (c5' & (g3 & Hg3 & Hall3 & -> & ->) & ->) & [_ ->]).
  rewrite !consumed_app.
  assert (Hg1 : ∃ g1, name = g1 +:+ s1 ∧ c1' = []
                      ∧ str_lower g1 ∈ ["sine"; "square"; "triangle"]).
  { destruct Htag as [[Hl ->]|[[Hl ->]|[Hl ->]]];
      apply lit_match_app in Hl as (g1 & -> & Hlow); exists g1;
      (split; [done|]); (split; [done|]); rewrite Hlow; simpl.
    - apply list_elem_of_here.
    - apply list_elem_of_further, list_elem_of_here.
    - do 2 apply list_elem_of_further. apply list_elem_of_here. }
  destruct Hg1 as (g1 & -> & -> & Hin). rewrite consumed_app.
  exists g1, g2, g3. by repeat split.
Qed.

End PatternGroups.

Section ParserShape.
Context {F : Type} `{Trig F} `{Decimal F}.

Lemma parse_signal_name_well_formed (name : string)
    (params : gmap string (value F)) :
  parse_signal_name name = Ok params → well_formed params.
Proof.
  unfold parse_signal_name.
  destruct (re_match dimmer_re name) as [m|].
  { destruct (py_float (group m 3)) as [v|]; [|discriminate].
    cbn [mbind outcome_bind mret outcome_ret]. intros [= <-].
    eexists "dimmer", _, _. split; [reflexivity|].
    split; [unfold families; do 3 apply list_elem_of_further;
            apply list_elem_of_here|].
    split; [reflexivity|]. split; [reflexivity|].
    split; [intros _; by eexists|discriminate]. }
  destruct (re_match sine_mod_re name) as [m|].
  { destruct (py_float (group m 3)) as [v|]; [|discriminate].
    cbn [mbind outcome_bind mret outcome_ret]. intros [= <-].
    eexists "sine_mod", _, _. split; [reflexivity|].
    split; [unfold families; do 4 apply list_elem_of_further;
            apply list_elem_of_here|].
    split; [reflexivity|]. split; [reflexivity|].
    split; [discriminate|intros _; by eexists]. }
  destruct (re_match plain_re name) as [m|] eqn:Hre; [|discriminate].
  destruct (py_float (group m 3)) as [v|]; [|discriminate].
  cbn [mbind outcome_bind mret outcome_ret]. intros [= <-].
  apply plain_re_groups in Hre as (g1 & g2 & g3 & -> & Htag & _).
  change (group [g1; g2; g3] 1) with g1.
  eexists (str_lower g1), _, _. split; [reflexivity|].
  repeat (apply elem_of_cons in Htag as [Htag|Htag]);
    [..|by apply elem_of_nil in Htag]; rewrite Htag.
  - split; [apply list_elem_of_here|].
    split; [reflexivity|]. split; [reflexivity|]. split; discriminate.
  - split; [unfold families; apply list_elem_of_further, list_elem_of_here|].
    split; [reflexivity|]. split; [reflexivity|]. split; discriminate.
  - split; [unfold families; do 2 apply list_elem_of_further;
            apply list_elem_of_here|].
    split; [reflexivity|]. split; [reflexivity|]. split; discriminate.
Qed.

End ParserShape.

(** [float] rounds once, also past the digits binary64 holds: the values
    are those of the same literals. *)
Lemma py_float_rounds_once :
  py_float (F:=float) "33.85" = Ok 33.85%float
  ∧ py_float (F:=float) "95189363.93947003" = Ok 95189363.93947003%float
  ∧ py_float (F:=float) "9007199254740993" = Ok 9007199254740992%float
  ∧ py_float (F:=float) ".5" = Ok 0.5%float
  ∧ py_float (F:=float) "5." = Ok 5%float
  ∧ raises (py_float (F:=float) "1.2.3")
  ∧ raises (py_float (F:=float) ".").
Proof.
  repeat split; try (vm_compute; reflexivity); eexists; vm_compute;
    reflexivity.
Qed.

(** X12: whatever the arithmetic, for an ASCII name whose digit runs have
    at most fifteen digits, a descriptor returned by [parse_signal_name] is
    well formed, and [generate_reference] accepts it: for [n_points >= 0]
    it returns two arrays of [n_points] elements. *)
Theorem parsed_descriptor_is_accepted `{Trig F} `{Decimal F} (name : string)
    (params : gmap string (value F)) (duration : F) (n_points : Z) :
  ascii_text name → (longest_run is_digit name ≤ 15)%nat →
  parse_signal_name name = Ok params → (0 ≤ n_points)%Z →
  well_formed params
  ∧ ∃ t out, generate_reference params duration n_points = Ok (t, out)
             ∧ length t = Z.to_nat n_points
             ∧ length out = Z.to_nat n_points.
Proof.
  intros _ _ Hparse Hn.
  pose proof (parse_signal_name_well_formed name params Hparse) as Hwf.
  split; [exact Hwf|]. by apply generate_reference_succeeds.
Qed.

(** X12 at the name [sine_60hz_33.85mVrms]. *)
Lemma parsed_descriptor_is_accepted_sine :
  ∃ params : gmap string (value R),
    parse_signal_name "sine_60hz_33.85mVrms" = Ok params
    ∧ well_formed params
    ∧ ∃ t out,
        generate_reference params default_duration default_n_points
        = Ok (t, out)
        ∧ length t = Z.to_nat default_n_points
        ∧ length out = Z.to_nat default_n_points.
Proof.
  eexists. split; [reflexivity|].
  eapply (parsed_descriptor_is_accepted "sine_60hz_33.85mVrms");
    [repeat split|vm_compute; lia|reflexivity|done].
Defined.

(** ** Letter case *)

Section LetterCase.

Lemma lower_idem (c : ascii) : lower (lower c) = lower c.
Proof. destruct c as [[] [] [] [] [] [] [] []]; reflexivity. Qed.

Lemma is_digit_lower (c : ascii) : is_digit (lower c) = is_digit c.
Proof. destruct c as [[] [] [] [] [] [] [] []]; reflexivity. Qed.

Lemma is_digit_or_dot_lower (c : ascii) :
  is_digit_or_dot (lower c) = is_digit_or_dot c.
Proof. destruct c as [[] [] [] [] [] [] [] []]; reflexivity. Qed.

Lemma lower_digit_or_dot (c : ascii) :
  is_digit_or_dot c = true → lower c = c.
Proof. destruct c as [[] [] [] [] [] [] [] []]; (reflexivity || discriminate). Qed.

Lemma lower_digit (c : ascii) : is_digit c = true → lower c = c.
Proof.
  intros Hc. apply lower_digit_or_dot. unfold is_digit_or_dot. by rewrite Hc.
Qed.

Lemma lower_newline (c : ascii) :
  Ascii.eqb (lower c) "010" = Ascii.eqb c "010".
Proof. destruct c as [[] [] [] [] [] [] [] []]; reflexivity. Qed.

Lemma str_lower_idem (s : string) : str_lower (str_lower s) = str_lower s.
Proof.
  induction s as [|c s IH]; [done|]. simpl. by rewrite lower_idem, IH.
Qed.

Lemma str_lower_fixed (cls : ascii → bool) (s : string) :
  (∀ c, cls c = true → lower c = c) → str_all cls s → str_lower s = s.
Proof.
  intros Hcls. induction s as [|c s IH]; [done|].
  intros [Hc Hs]. simpl. by rewrite (Hcls c Hc), IH.
Qed.

Lemma str_lower_length (s : string) :
  String.length (str_lower s) = String.length s.
Proof. induction s as [|c s IH]; [done|]. simpl. by rewrite IH. Qed.

Lemma str_take_lower (n : nat) (s : string) :
  str_take n (str_lower s) = str_lower (str_take n s).
Proof.
  revert s. induction n as [|n IH]; intros [|c s]; simpl; try done.
  by rewrite IH.
Qed.

Lemma consumed_lower (s rest : string) :
  consumed (str_lower s) (str_lower rest) = str_lower (consumed s rest).
Proof. unfold consumed. by rewrite !str_lower_length, str_take_lower. Qed.

Lemma lit_match_lower (text s : string) :
  lit_match text (str_lower s) = str_lower <$> lit_match text s.
Proof.
  revert s. induction text as [|a text IH]; intros s; [done|].
  destruct s as [|c s]; [done|]. simpl. rewrite lower_idem.
  destruct (Ascii.eqb (lower a) (lower c)); [apply IH|done].
Qed.

Lemma star_lower {A} (cls : ascii → bool) (s : string)
    (k k' : string → option A) :
  (∀ c, cls (lower c) = cls c) →
  (∀ rest, k' (str_lower rest) = k rest) →
  star cls (str_lower s) k' = star cls s k.
Proof.
  intros Hcls Hk. induction s as [|c s IH]; simpl.
  - apply (Hk EmptyString).
  - rewrite Hcls, IH. pose proof (Hk (String c s)) as Hcs. simpl in Hcs.
    by rewrite Hcs.
Qed.

Lemma rmatch_lower {A} (r : regex) (s : string) (caps : list string)
    (k k' : string → list string → option A) :
  case_blind r →
  (∀ rest c, k' (str_lower rest) (map str_lower c) = k rest c) →
  rmatch r (str_lower s) (map str_lower caps) k' = rmatch r s caps k.
Proof.
  revert s caps k k'.
  induction r as [text|cls|cls|r1 IH1 r2 IH2|r1 IH1|r1 IH1 r2 IH2|];
    intros s caps k k' Hr Hk; cbn [rmatch case_blind] in *.
  - rewrite lit_match_lower. destruct (lit_match text s); [apply Hk|done].
  - destruct s as [|c s]; [done|]. simpl. rewrite Hr.
    destruct (cls c); [|done]. apply star_lower; [done|].
    intros rest. apply Hk.
  - destruct s as [|c s]; [done|]. simpl. rewrite Hr.
    destruct (cls c); [apply Hk|done].
  - destruct Hr as [Hr1 Hr2].
    rewrite (IH1 s caps k k' Hr1 Hk), (IH2 s caps k k' Hr2 Hk). done.
  - apply IH1; [done|]. intros rest c.
    rewrite consumed_lower, <- (Hk rest (c ++ [consumed s rest])), map_app.
    reflexivity.
  - destruct Hr as [Hr1 Hr2]. apply IH1; [done|]. intros rest c.
    by apply IH2.
  - destruct s as [|c [|c' s]]; simpl.
    + apply (Hk EmptyString).
    + rewrite lower_newline. destruct (Ascii.eqb c "010"); [|done].
      apply (Hk (String c EmptyString)).
    + rewrite lower_newline. by destruct (Ascii.eqb c "010").
Qed.

Lemma star_ext {A} (cls : ascii → bool) (s : string)
    (k1 k2 : string → option A) :
  (∀ rest, k1 rest = k2 rest) → star cls s k1 = star cls s k2.
Proof.
  intros Hk. induction s as [|c s IH]; simpl; [apply Hk|].
  by rewrite IH, Hk.
Qed.

Lemma rmatch_ext {A} (r : regex) (s : string) (caps : list string)
    (k1 k2 : string → list string → option A) :
  (∀ rest c, k1 rest c = k2 rest c) →
  rmatch r s caps k1 = rmatch r s caps k2.
Proof.
  revert s caps k1 k2.
  induction r as [text|cls|cls|r1 IH1 r2 IH2|r1 IH1|r1 IH1 r2 IH2|];
    intros s caps k1 k2 Hk; cbn [rmatch].
  - destruct (lit_match text s); [apply Hk|done].
  - destruct s as [|c s]; [done|]. destruct (cls c); [|done].
    apply star_ext. intros rest. apply Hk.
  - destruct s as [|c s]; [done|]. destruct (cls c); [apply Hk|done].
  - by rewrite (IH1 s caps k1 k2 Hk), (IH2 s caps k1 k2 Hk).
  - apply IH1. intros rest c. apply Hk.
  - apply IH1. intros rest c. by apply IH2.
  - destruct (_ || _); [apply Hk|done].
Qed.

Lemma star_post {A B} (g : A → B) (cls : ascii → bool) (s : string)
    (k : string → option A) :
  star cls s (λ rest, g <$> k rest) = g <$> star cls s k.
Proof.
  induction s as [|c s IH]; simpl; [done|].
  destruct (cls c); [|done]. rewrite IH. by destruct (star cls s k).
Qed.

Lemma rmatch_post {A B} (g : A → B) (r : regex) (s : string)
    (caps : list string) (k : string → list string → option A) :
  rmatch r s caps (λ rest c, g <$> k rest c) = g <$> rmatch r s caps k.
Proof.
  revert s caps k.
  induction r as [text|cls|cls|r1 IH1 r2 IH2|r1 IH1|r1 IH1 r2 IH2|];
    intros s caps k; cbn [rmatch].
  - by destruct (lit_match text s).
  - destruct s as [|c s]; [done|]. destruct (cls c); [|done].
    apply (star_post g cls s (λ rest, k rest caps)).
  - destruct s as [|c s]; [done|]. by destruct (cls c).
  - rewrite IH1, IH2. by destruct (rmatch r1 s caps k).
  - apply (IH1 s caps (λ rest caps', k rest (caps' ++ [consumed s rest]))).
  - rewrite <- (IH1 s caps (λ rest caps', rmatch r2 rest caps' k)).
    apply rmatch_ext. intros rest c. apply IH2.
  - by destruct (_ || _).
Qed.

End LetterCase.

Section ParserCase.
Context {F : Type} `{Trig F} `{Decimal F}.

Lemma re_match_lower (r : regex) (s : string) :
  case_blind r →
  re_match r (str_lower s) = map str_lower <$> re_match r s.
Proof.
  intros Hr. unfold re_match.
  rewrite <- (rmatch_post (map str_lower) r s [] (λ _ caps, Some caps)).
  apply (rmatch_lower r s [] _ _ Hr). reflexivity.
Qed.

Lemma dimmer_re_case_blind : case_blind dimmer_re.
Proof.
  unfold dimmer_re. cbn [case_blind].
  repeat split; auto using is_digit_lower, is_digit_or_dot_lower.
Qed.

Lemma sine_mod_re_case_blind : case_blind sine_mod_re.
Proof.
  unfold sine_mod_re. cbn [case_blind].
  repeat split; auto using is_digit_lower, is_digit_or_dot_lower.
Qed.

Lemma plain_re_case_blind : case_blind plain_re.
Proof.
  unfold plain_re. cbn [case_blind].
  repeat split; auto using is_digit_lower, is_digit_or_dot_lower.
Qed.

Lemma re_match_same_lower (r : regex) (name1 name2 : string) :
  case_blind r → str_lower name1 = str_lower name2 →
  map str_lower <$> re_match r name1 = map str_lower <$> re_match r name2.
Proof.
  intros Hr Hlow. by rewrite <- !(re_match_lower _ _ Hr), Hlow.
Qed.

Lemma parse_signal_name_same_lower (name1 name2 : string) :
  str_lower name1 = str_lower name2 →
  parse_signal_name (F:=F) name1 = parse_signal_name name2
  ∨ (parse_signal_name (F:=F) name1
       = Raise (ValueError ("Nome de sinal não reconhecido: " +:+ name1))
     ∧ parse_signal_name (F:=F) name2
       = Raise (ValueError ("Nome de sinal não reconhecido: " +:+ name2))).
Proof.
  intros Hlow.
  pose proof (re_match_same_lower _ _ _ dimmer_re_case_blind Hlow) as Hd.
  pose proof (re_match_same_lower _ _ _ sine_mod_re_case_blind Hlow) as Hs.
  pose proof (re_match_same_lower _ _ _ plain_re_case_blind Hlow) as Hp.
  unfold parse_signal_name.
  destruct (re_match dimmer_re name1) as [m1|] eqn:Hd1;
    destruct (re_match dimmer_re name2) as [m2|] eqn:Hd2;
    try discriminate Hd.
  { left.
    apply dimmer_re_groups in Hd1
      as (a1 & a2 & a3 & -> & _ & Ha1 & _ & Ha2 & _ & Ha3).
    apply dimmer_re_groups in Hd2
      as (b1 & b2 & b3 & -> & _ & Hb1 & _ & Hb2 & _ & Hb3).
    cbn [fmap option_fmap option_map map] in Hd.
    rewrite (str_lower_fixed _ a1 lower_digit Ha1),
      (str_lower_fixed _ a2 lower_digit Ha2),
      (str_lower_fixed _ a3 lower_digit_or_dot Ha3),
      (str_lower_fixed _ b1 lower_digit Hb1),
      (str_lower_fixed _ b2 lower_digit Hb2),
      (str_lower_fixed _ b3 lower_digit_or_dot Hb3) in Hd.
    by injection Hd as -> -> ->. }
  destruct (re_match sine_mod_re name1) as [m1|] eqn:Hs1;
    destruct (re_match sine_mod_re name2) as [m2|] eqn:Hs2;
    try discriminate Hs.
  { left.
    apply sine_mod_re_groups in Hs1
      as (a1 & a2 & a3 & -> & _ & Ha1 & _ & Ha2 & _ & Ha3).
    apply sine_mod_re_groups in Hs2
      as (b1 & b2 & b3 & -> & _ & Hb1 & _ & Hb2 & _ & Hb3).
    cbn [fmap option_fmap option_map map] in Hs.
    rewrite (str_lower_fixed _ a1 lower_digit Ha1),
      (str_lower_fixed _ a2 lower_digit Ha2),
      (str_lower_fixed _ a3 lower_digit_or_dot Ha3),
      (str_lower_fixed _ b1 lower_digit Hb1),
      (str_lower_fixed _ b2 lower_digit Hb2),
      (str_lower_fixed _ b3 lower_digit_or_dot Hb3) in Hs.
    by injection Hs as -> -> ->. }
  destruct (re_match plain_re name1) as [m1|] eqn:Hp1;
    destruct (re_match plain_re name2) as [m2|] eqn:Hp2;
    try discriminate Hp; [left|by right].
  apply plain_re_groups in Hp1 as (a1 & a2 & a3 & -> & _ & _ & Ha2 & _ & Ha3).
  apply plain_re_groups in Hp2 as (b1 & b2 & b3 & -> & _ & _ & Hb2 & _ & Hb3).
  cbn [fmap option_fmap option_map map] in Hp.
  rewrite (str_lower_fixed _ a2 lower_digit Ha2),
    (str_lower_fixed _ a3 lower_digit_or_dot Ha3),
    (str_lower_fixed _ b2 lower_digit Hb2),
    (str_lower_fixed _ b3 lower_digit_or_dot Hb3) in Hp.
  change (group [?a; ?b; ?c] 1) with a.
  change (group [?a; ?b; ?c] 2) with b.
  change (group [?a; ?b; ?c] 3) with c.
  by injection Hp as -> -> ->.
Qed.

End ParserCase.

(** X13: whatever the arithmetic, two names that differ only in the case
    of their letters parse alike: both to the same descriptor or to the same
    [float] error, or both are unrecognised, each [ValueError] quoting its
    own name. *)
Theorem parse_signal_name_ignores_case `{Trig F} `{Decimal F} (name1 name2 : string) :
  str_lower name1 = str_lower name2 →
  parse_signal_name (F:=F) name1 = parse_signal_name name2
  ∨ (parse_signal_name (F:=F) name1
       = Raise (ValueError ("Nome de sinal não reconhecido: " +:+ name1))
     ∧ parse_signal_name (F:=F) name2
       = Raise (ValueError ("Nome de sinal não reconhecido: " +:+ name2))).
Proof. apply parse_signal_name_same_lower. Qed.

(** X13 at [SINE_60HZ_33.85MVRMS]. *)
Lemma parse_signal_name_ignores_case_sine :
  parse_signal_name (F:=R) "SINE_60HZ_33.85MVRMS"
  = parse_signal_name "sine_60hz_33.85mVrms"
  ∨ (parse_signal_name (F:=R) "SINE_60HZ_33.85MVRMS"
       = Raise (ValueError ("Nome de sinal não reconhecido: "
                            +:+ "SINE_60HZ_33.85MVRMS"))
     ∧ parse_signal_name (F:=R) "sine_60hz_33.85mVrms"
       = Raise (ValueError ("Nome de sinal não reconhecido: "
                            +:+ "sine_60hz_33.85mVrms"))).
Proof. apply parse_signal_name_ignores_case. reflexivity. Defined.

(** ** Names in the three formats *)

Section MatcherForward.
Context {A : Type}.

Lemma star_run (cls : ascii → bool) (pre rest : string)
    (k : string → option A) (x : A) :
  str_all cls pre → stops cls rest → k rest = Some x →
  star cls (pre +:+ rest) k = Some x.
Proof.
  intros Hall Hstop Hk. induction pre as [|c pre IH].
  - rewrite str_app_nil_l. destruct rest as [|c rest]; [done|].
    simpl in *. by rewrite Hstop.
  - destruct Hall as [Hc Hall]. rewrite str_app_cons. simpl.
    by rewrite Hc, (IH Hall).
Qed.

Lemma star_run_fails (cls : ascii → bool) (pre rest : string)
    (k : string → option A) :
  str_all cls pre → stops cls rest →
  (∀ c r, cls c = true → k (String c r) = None) → k rest = None →
  star cls (pre +:+ rest) k = None.
Proof.
  intros Hall Hstop Hcls Hk. induction pre as [|c pre IH].
  - rewrite str_app_nil_l. destruct rest as [|c rest]; [done|].
    simpl in *. by rewrite Hstop.
  - destruct Hall as [Hc Hall]. rewrite str_app_cons. simpl.
    rewrite Hc, (IH Hall). by apply Hcls.
Qed.

Lemma rmatch_group_run (cls : ascii → bool) (pre rest : string)
    (caps : list string) (k : string → list string → option A) (x : A) :
  pre ≠ EmptyString → str_all cls pre → stops cls rest →
  k rest (caps ++ [pre]) = Some x →
  rmatch (Group (Plus cls)) (pre +:+ rest) caps k = Some x.
Proof.
  intros Hne Hall Hstop Hk. cbn [rmatch].
  destruct pre as [|c pre]; [done|]. destruct Hall as [Hc Hall].
  rewrite str_app_cons, Hc.
  apply star_run; [done..|].
  rewrite <- str_app_cons, consumed_app. exact Hk.
Qed.

Lemma rmatch_group_run_fails (cls : ascii → bool) (pre rest : string)
    (caps : list string) (k : string → list string → option A) :
  str_all cls pre → stops cls rest →
  (∀ s r caps', cls s = true → k (String s r) caps' = None) →
  (∀ caps', k rest caps' = None) →
  rmatch (Group (Plus cls)) (pre +:+ rest) caps k = None.
Proof.
  intros Hall Hstop Hcls Hk. cbn [rmatch].
  destruct pre as [|c pre].
  - rewrite str_app_nil_l. destruct rest as [|c rest]; [done|].
    simpl in Hstop. by rewrite Hstop.
  - destruct Hall as [Hc Hall]. rewrite str_app_cons, Hc.
    apply star_run_fails; [done..| |apply Hk].
    intros s r Hs. by apply Hcls.
Qed.

End MatcherForward.

Section CanonicalNames.

Lemma rmatch_seq {A} (r1 r2 : regex) (s : string) (caps : list string)
    (k : string → list string → option A) :
  rmatch (Seq r1 r2) s caps k
  = rmatch r1 s caps (λ rest caps', rmatch r2 rest caps' k).
Proof. reflexivity. Qed.

Lemma rmatch_lit_self {A} (text rest : string) (caps : list string)
    (k : string → list string → option A) :
  rmatch (Lit text) (text +:+ rest) caps k = k rest caps.
Proof. cbn [rmatch]. by rewrite lit_match_self. Qed.

Lemma rmatch_lit_fails {A} (text s : string) (caps : list string)
    (k : string → list string → option A) :
  lit_match text s = None → rmatch (Lit text) s caps k = None.
Proof. intros H. cbn [rmatch]. by rewrite H. Qed.

Lemma rmatch_group_lit_self {A} (text rest : string) (caps : list string)
    (k : string → list string → option A) :
  rmatch (Group (Lit text)) (text +:+ rest) caps k = k rest (caps ++ [text]).
Proof. cbn [rmatch]. by rewrite lit_match_self, consumed_app. Qed.

Lemma rmatch_group_lit_fails {A} (text s : string) (caps : list string)
    (k : string → list string → option A) :
  lit_match text s = None → rmatch (Group (Lit text)) s caps k = None.
Proof. intros H. cbn [rmatch]. by rewrite H. Qed.

Lemma rmatch_group_alt {A} (r1 r2 : regex) (s : string) (caps : list string)
    (k : string → list string → option A) :
  rmatch (Group (Alt r1 r2)) s caps k
  = match rmatch (Group r1) s caps k with
    | Some x => Some x
    | None => rmatch (Group r2) s caps k
    end.
Proof. reflexivity. Qed.

Lemma digit_not_hz_mod (c : ascii) (r : string) :
  is_digit c = true → lit_match "hz_mod_" (String c r) = None.
Proof. destruct c as [[] [] [] [] [] [] [] []]; (reflexivity || discriminate). Qed.

Lemma text_not_hz_mod (c : ascii) (r : string) :
  is_digit_or_dot c = true → lit_match "hz_mod_" ("hz_" +:+ String c r) = None.
Proof. destruct c as [[] [] [] [] [] [] [] []]; (reflexivity || discriminate). Qed.

(** the part that the three patterns share:
    [(\d+)hz_([\d.]+)mVrms] *)
Lemma tail_match (freq vrms suffix : string) (caps : list string) :
  digits freq → decimal_text vrms →
  rmatch
    (Seq (Group (Plus is_digit)) (Seq (Lit "hz_")
      (Seq (Group (Plus is_digit_or_dot)) (Lit "mVrms"))))
    (freq +:+ "hz_" +:+ vrms +:+ "mVrms" +:+ suffix) caps
    (λ _ c, Some c)
  = Some (caps ++ [freq] ++ [vrms]).
Proof.
  intros [Hf Hfall] [Hv Hvall]. rewrite rmatch_seq.
  apply (rmatch_group_run is_digit freq); [done..|]. cbv beta.
  rewrite rmatch_seq, rmatch_lit_self, rmatch_seq.
  apply (rmatch_group_run is_digit_or_dot vrms); [done..|]. cbv beta.
  rewrite rmatch_lit_self. by rewrite <- app_assoc.
Qed.

Lemma dimmer_name_match (duty freq vrms suffix : string) :
  digits duty → digits freq → decimal_text vrms →
  re_match dimmer_re (dimmer_name duty freq vrms +:+ suffix)
  = Some [duty; freq; vrms].
Proof.
  intros [Hd Hdall] Hf Hv. unfold re_match, dimmer_re, dimmer_name.
  rewrite !str_app_assoc. rewrite rmatch_seq, rmatch_lit_self, rmatch_seq.
  apply (rmatch_group_run is_digit duty); [done..|]. cbv beta.
  rewrite rmatch_seq, rmatch_lit_self.
  apply (tail_match freq vrms suffix ([] ++ [duty]) Hf Hv).
Qed.

Lemma sine_mod_name_match (freq mod_freq vrms suffix : string) :
  digits freq → digits mod_freq → decimal_text vrms →
  re_match dimmer_re (sine_mod_name freq mod_freq vrms +:+ suffix) = None
  ∧ re_match sine_mod_re (sine_mod_name freq mod_freq vrms +:+ suffix)
    = Some [freq; mod_freq; vrms].
Proof.
  intros [Hf Hfall] Hm Hv. split.
  { unfold re_match, dimmer_re, sine_mod_name. rewrite !str_app_assoc.
    rewrite rmatch_seq. by apply rmatch_lit_fails. }
  unfold re_match, sine_mod_re, sine_mod_name.
  rewrite !str_app_assoc. rewrite rmatch_seq, rmatch_lit_self, rmatch_seq.
  apply (rmatch_group_run is_digit freq); [done..|]. cbv beta.
  rewrite rmatch_seq, rmatch_lit_self.
  apply (tail_match mod_freq vrms suffix ([] ++ [freq]) Hm Hv).
Qed.

(** a plain sine name is not taken for a modulated one *)
Lemma sine_mod_re_rejects_plain (freq vrms suffix : string) :
  digits freq → decimal_text vrms →
  re_match sine_mod_re (plain_name "sine" freq vrms +:+ suffix) = None.
Proof.
  intros [Hf Hfall] [Hv Hvall]. unfold re_match, sine_mod_re, plain_name.
  rewrite !str_app_assoc.
  change ("sine" +:+ "_" +:+ ?x) with ("sine_" +:+ x).
  rewrite rmatch_seq, rmatch_lit_self, rmatch_seq.
  apply (rmatch_group_run_fails is_digit freq); [done..| |].
  - intros c r caps' Hc. rewrite rmatch_seq. apply rmatch_lit_fails.
    by apply digit_not_hz_mod.
  - intros caps'. rewrite rmatch_seq. apply rmatch_lit_fails.
    destruct vrms as [|c vrms]; [done|]. destruct Hvall as [Hc _].
    rewrite str_app_cons. by apply text_not_hz_mod.
Qed.

Lemma plain_tail_match (tag freq vrms suffix : string) :
  digits freq → decimal_text vrms →
  rmatch (Group (Lit tag))
    (tag +:+ "_" +:+ freq +:+ "hz_" +:+ vrms +:+ "mVrms" +:+ suffix) []
    (λ rest caps',
       rmatch
         (Seq (Lit "_") (Seq (Group (Plus is_digit)) (Seq (Lit "hz_")
           (Seq (Group (Plus is_digit_or_dot)) (Lit "mVrms")))))
         rest caps' (λ _ c, Some c))
  = Some [tag; freq; vrms].
Proof.
  intros Hf Hv. rewrite rmatch_group_lit_self, rmatch_seq, rmatch_lit_self.
  apply (tail_match freq vrms suffix ([] ++ [tag]) Hf Hv).
Qed.

Lemma plain_name_match (tag freq vrms suffix : string) :
  tag ∈ ["sine"; "square"; "triangle"] →
  digits freq → decimal_text vrms →
  re_match dimmer_re (plain_name tag freq vrms +:+ suffix) = None
  ∧ re_match sine_mod_re (plain_name tag freq vrms +:+ suffix) = None
  ∧ re_match plain_re (plain_name tag freq vrms +:+ suffix)
    = Some [tag; freq; vrms].
Proof.
  intros Htag Hf Hv.
  pose proof (sine_mod_re_rejects_plain freq vrms suffix Hf Hv) as Hsine.
  pose proof (λ tag, plain_tail_match tag freq vrms suffix Hf Hv) as Htail.
  revert Hsine. unfold re_match, dimmer_re, sine_mod_re, plain_re, plain_name.
  rewrite !str_app_assoc. intros Hsine.
  repeat (apply elem_of_cons in Htag as [->|Htag]);
    [..|by apply elem_of_nil in Htag].
  - split; [rewrite rmatch_seq; by apply rmatch_lit_fails|].
    split; [exact Hsine|].
    by rewrite rmatch_seq, rmatch_group_alt, Htail.
  - split; [rewrite rmatch_seq; by apply rmatch_lit_fails|].
    split; [rewrite rmatch_seq; by apply rmatch_lit_fails|].
    rewrite rmatch_seq, !rmatch_group_alt.
    rewrite (rmatch_group_lit_fails "sine") by reflexivity.
    by rewrite Htail.
  - split; [rewrite rmatch_seq; by apply rmatch_lit_fails|].
    split; [rewrite rmatch_seq; by apply rmatch_lit_fails|].
    rewrite rmatch_seq, !rmatch_group_alt.
    rewrite (rmatch_group_lit_fails "sine") by reflexivity.
    rewrite (rmatch_group_lit_fails "square") by reflexivity.
    by rewrite Htail.
Qed.

End CanonicalNames.

Section NamesParse.
Context {F : Type} `{Trig F} `{Decimal F}.
Local Open Scope num_scope.

Lemma parse_dimmer_name (duty freq vrms suffix : string) :
  digits duty → digits freq → decimal_text vrms →
  parse_signal_name (F:=F) (dimmer_name duty freq vrms +:+ suffix)
  = (x ← py_float vrms;
     mret (dimmer_descriptor (of_Z (py_int duty)) (of_Z (py_int freq))
             (x * dec 1 1000))).
Proof.
  intros Hd Hf Hv. unfold parse_signal_name.
  by rewrite (dimmer_name_match duty freq vrms suffix Hd Hf Hv).
Qed.

Lemma parse_sine_mod_name (freq mod_freq vrms suffix : string) :
  digits freq → digits mod_freq → decimal_text vrms →
  parse_signal_name (F:=F) (sine_mod_name freq mod_freq vrms +:+ suffix)
  = (x ← py_float vrms;
     mret (sine_mod_descriptor (of_Z (py_int freq)) (of_Z (py_int mod_freq))
             (x * dec 1 1000))).
Proof.
  intros Hf Hm Hv. unfold parse_signal_name.
  destruct (sine_mod_name_match freq mod_freq vrms suffix Hf Hm Hv)
    as [-> ->].
  reflexivity.
Qed.

Lemma parse_plain_name (tag freq vrms suffix : string) :
  tag ∈ ["sine"; "square"; "triangle"] →
  digits freq → decimal_text vrms →
  parse_signal_name (F:=F) (plain_name tag freq vrms +:+ suffix)
  = (x ← py_float vrms;
     mret (descriptor tag (of_Z (py_int freq)) (x * dec 1 1000))).
Proof.
  intros Htag Hf Hv. unfold parse_signal_name.
  destruct (plain_name_match tag freq vrms suffix Htag Hf Hv)
    as (-> & -> & ->).
  change (group [?a; ?b; ?c] 1) with a.
  change (group [?a; ?b; ?c] 2) with b.
  change (group [?a; ?b; ?c] 3) with c.
  replace (str_lower tag) with tag; [reflexivity|].
  repeat (apply elem_of_cons in Htag as [->|Htag]);
    [reflexivity..|by apply elem_of_nil in Htag].
Qed.

Lemma lit_match_no_prefix (text s : string) :
  String.prefix (str_lower text) (str_lower s) = false →
  lit_match text s = None.
Proof.
  revert s. induction text as [|a text IH]; intros s; [by destruct s|].
  destruct s as [|c s]; [done|]. simpl.
  destruct (Ascii.ascii_dec (lower a) (lower c)) as [Hac|Hac].
  - rewrite Hac, Ascii.eqb_refl. apply IH.
  - intros _. by apply Ascii.eqb_neq in Hac as ->.
Qed.

Lemma lit_match_text_app (a b s : string) :
  lit_match (a +:+ b) s
  = match lit_match a s with
    | Some rest => lit_match b rest
    | None => None
    end.
Proof.
  revert s. induction a as [|x a IH]; intros s; [by rewrite str_app_nil_l|].
  rewrite str_app_cons. destruct s as [|c s]; [done|]. simpl.
  by destruct (Ascii.eqb (lower x) (lower c)).
Qed.

Lemma rmatch_tag_fails {A} (tag name : string) (r : regex)
    (caps : list string) (k : string → list string → option A) :
  lit_match (tag +:+ "_") name = None →
  rmatch (Group (Lit tag)) name caps
    (λ rest caps', rmatch (Seq (Lit "_") r) rest caps' k) = None.
Proof.
  rewrite lit_match_text_app. cbn [rmatch].
  destruct (lit_match tag name) as [rest|]; [|done].
  by intros ->.
Qed.

Lemma parse_unrecognised (name : string) :
  String.prefix "dimmer_" (str_lower name) = false →
  String.prefix "sine_" (str_lower name) = false →
  String.prefix "square_" (str_lower name) = false →
  String.prefix "triangle_" (str_lower name) = false →
  parse_signal_name (F:=F) name
  = Raise (ValueError ("Nome de sinal não reconhecido: " +:+ name)).
Proof.
  intros Hd Hs Hq Ht. unfold parse_signal_name.
  assert (re_match dimmer_re name = None) as ->.
  { unfold re_match, dimmer_re. rewrite rmatch_seq.
    by apply rmatch_lit_fails, lit_match_no_prefix. }
  assert (re_match sine_mod_re name = None) as ->.
  { unfold re_match, sine_mod_re. rewrite rmatch_seq.
    by apply rmatch_lit_fails, lit_match_no_prefix. }
  assert (re_match plain_re name = None) as ->; [|reflexivity].
  unfold re_match, plain_re. rewrite rmatch_seq, !rmatch_group_alt.
  rewrite !rmatch_tag_fails; [reflexivity|by apply lit_match_no_prefix..].
Qed.

End NamesParse.

(** X14: a name in one of the three formats, with integers of at most
    fifteen digits and followed by any ASCII text, parses to the fields it
    spells: the digit runs through [int], the digits and dots of the
    amplitude through [float] and the factor [1e-3]; what follows [mVrms]
    is ignored, and a plain sine name is not taken for a modulated one.
    The only failure left is [float]'s. *)
Theorem formatted_names_parse `{Trig F} `{Decimal F} (a b v suffix : string) :
  digits a → (String.length a ≤ 15)%nat →
  digits b → (String.length b ≤ 15)%nat →
  decimal_text v → ascii_text suffix →
  parse_signal_name (F:=F) (dimmer_name a b v +:+ suffix)
  = (x ← py_float v;
     mret (dimmer_descriptor (of_Z (py_int a)) (of_Z (py_int b))
             (x * dec 1 1000)%num))
  ∧ parse_signal_name (F:=F) (sine_mod_name a b v +:+ suffix)
    = (x ← py_float v;
       mret (sine_mod_descriptor (of_Z (py_int a)) (of_Z (py_int b))
               (x * dec 1 1000)%num))
  ∧ ∀ tag, tag ∈ ["sine"; "square"; "triangle"] →
      parse_signal_name (F:=F) (plain_name tag a v +:+ suffix)
      = (x ← py_float v;
         mret (descriptor tag (of_Z (py_int a)) (x * dec 1 1000)%num)).
Proof.
  intros Ha _ Hb _ Hv _. split; [by apply parse_dimmer_name|].
  split; [by apply parse_sine_mod_name|].
  intros tag Htag. by apply parse_plain_name.
Qed.

(** X14 at duty 50, 60 Hz and 118 mVrms, with a log file's ending. *)
Lemma formatted_names_parse_example :
  parse_signal_name (F:=R) (dimmer_name "50" "60" "118" +:+ "_ads1015.log")
  = (x ← py_float "118";
     mret (dimmer_descriptor (of_Z (py_int "50")) (of_Z (py_int "60"))
             (x * dec 1 1000)%num))
  ∧ parse_signal_name (F:=R)
      (sine_mod_name "50" "60" "118" +:+ "_ads1015.log")
    = (x ← py_float "118";
       mret (sine_mod_descriptor (of_Z (py_int "50")) (of_Z (py_int "60"))
               (x * dec 1 1000)%num))
  ∧ ∀ tag, tag ∈ ["sine"; "square"; "triangle"] →
      parse_signal_name (F:=R) (plain_name tag "50" "118" +:+ "_ads1015.log")
      = (x ← py_float "118";
         mret (descriptor tag (of_Z (py_int "50")) (x * dec 1 1000)%num)).
Proof.
  apply formatted_names_parse;
    first [ split; [discriminate|simpl; tauto] | simpl; lia | repeat split ].
Defined.

(** X15: an ASCII name that, letter case apart, starts with none of
    [dimmer_], [sine_], [square_] and [triangle_] is rejected with the
    [ValueError] that quotes the name. *)
Theorem unrecognised_name_raises `{Trig F} `{Decimal F} (name : string) :
  ascii_text name →
  String.prefix "dimmer_" (str_lower name) = false →
  String.prefix "sine_" (str_lower name) = false →
  String.prefix "square_" (str_lower name) = false →
  String.prefix "triangle_" (str_lower name) = false →
  parse_signal_name (F:=F) name
  = Raise (ValueError ("Nome de sinal não reconhecido: " +:+ name)).
Proof. intros _. apply parse_unrecognised. Qed.

(** X15 at [sawtooth_60hz_10mVrms]. *)
Lemma unrecognised_name_raises_sawtooth :
  parse_signal_name (F:=R) "sawtooth_60hz_10mVrms"
  = Raise (ValueError ("Nome de sinal não reconhecido: "
                       +:+ "sawtooth_60hz_10mVrms")).
Proof.
  apply unrecognised_name_raises; [repeat split|reflexivity..].
Defined.

(** * find_signal_pairs *)

Section PairPattern.





Lemma is_0_or_1_lower (c : ascii) : is_0_or_1 (lower c) = is_0_or_1 c.
Proof. destruct c as [[] [] [] [] [] [] [] []]; reflexivity. Qed.





End PairPattern.

Section PairsFound.
Variable isfile : string → bool.




End PairsFound.

